(** * The capability index of [capabilities/server.py]

    A shallow embedding of the class [CapabilityIndex] and of the reload
    handler of [CapabilityServer], followed by the properties of the index:
    name uniqueness, collision handling, the stored package path, the
    queries and the stub operations.

    The object state and the standard output are threaded through a small
    state-and-exception monad; Python dictionaries are finite maps keyed by
    strings. *)

From Stdlib Require Import Ascii.
From stdpp Require Import base option list strings gmap.

Set Default Proof Using "Type".

(** ** Collaborators imported by the module

    [server.py] imports the parsed-record classes and their loaders from
    [capabilities.specs.*] and the file enumeration from [discovery].  They
    are interfaces of the index; the index only reads [name], [implements]
    and [redefines]. *)

Class Specs := {
  Interface : Type;
  Provider : Type;
  SemanticInterface : Type;
  interface_name : Interface → string;
  provider_name : Provider → string;
  provider_implements : Provider → string;
  semantic_interface_name : SemanticInterface → string;
  semantic_interface_redefines : SemanticInterface → string;
  capability_interface_from_file_path : string → Interface;
  capability_provider_from_file_path : string → Provider;
  semantic_capability_interface_from_file_path : string → SemanticInterface;
}.

Class Discovery := {
  PackageDict : Type;
  FileIndex : Type;
  _build_package_dict : option (list string) → PackageDict;
  _build_file_index : PackageDict → FileIndex;
  list_interface_files : FileIndex → list string;
  list_provider_files : FileIndex → list string;
  list_semantic_interface_files : FileIndex → list string;
}.

(** ** Python values the module raises *)

Inductive PyException := TypeError | NotImplementedError.

(** What may follow the keyword [raise]: the builtin constant
    [NotImplemented], which is not an exception, or an exception class. *)
Inductive PyObject := NotImplemented | ExceptionClass (e : PyException).

Inductive Result (A : Type) :=
  | Ok (a : A)
  | Raised (e : PyException).
Arguments Ok {A} a.
Arguments Raised {A} e.

Inductive EmptyResponse := mkEmptyResponse.

(** Truth value of an optional sequence: [None] and the empty list are
    false. *)
Definition truthy {A} (x : option (list A)) : bool :=
  match x with
  | None => false
  | Some [] => false
  | Some (_ :: _) => true
  end.

(** [k in d] for a dictionary [d]. *)
Definition py_in {V} (k : string) (d : gmap string V) : bool :=
  if d !! k is Some _ then true else false.

(** [d.values()] *)
Definition values {V} (d : gmap string V) : list V :=
  snd <$> map_to_list d.

Section Model.
Context `{Specs, Discovery}.

(** The attributes of a [CapabilityIndex] instance. *)
Record CapabilityIndex := {
  _ros_package_path : option (list string);
  _interfaces : gmap string Interface;
  _providers : gmap string Provider;
  _semantic_interfaces : gmap string SemanticInterface;
}.

(** The object a method runs on, and the lines printed so far. *)
Record World := {
  self : CapabilityIndex;
  stdout : list string;
}.

Definition M (A : Type) : Type := World → Result A * World.

Definition ret {A} (a : A) : M A := λ w, (Ok a, w).

Definition bind {A B} (m : M A) (k : A → M B) : M B :=
  λ w, match m w with
       | (Ok a, w') => k a w'
       | (Raised e, w') => (Raised e, w')
       end.

Definition get_self : M CapabilityIndex := λ w, (Ok (self w), w).

Definition modify_self (f : CapabilityIndex → CapabilityIndex) : M unit :=
  λ w, (Ok tt, {| self := f (self w); stdout := stdout w |}).

Definition print (line : string) : M unit :=
  λ w, (Ok tt, {| self := self w; stdout := stdout w ++ [line] |}).

(** [raise o]: an object that is not an exception makes the statement
    itself fail with [TypeError]. *)
Definition raise {A} (o : PyObject) : M A :=
  λ w, (Raised match o with
               | ExceptionClass e => e
               | NotImplemented => TypeError
               end, w).
End Model.

Declare Scope py_scope.
Delimit Scope py_scope with py.
Notation "x <- m ;; k" := (bind m (λ x, k))
  (at level 100, m at next level, k at level 200, right associativity) : py_scope.
Notation "m ;;; k" := (bind m (λ _, k))
  (at level 100, k at level 200, right associativity) : py_scope.
Open Scope py_scope.

Section Methods.
Context `{Specs, Discovery}.

(** [for x in l: body x] *)
Fixpoint for_each {A} (l : list A) (body : A → M unit) : M unit :=
  match l with
  | [] => ret tt
  | x :: l' => body x ;;; for_each l' body
  end.

(** Attribute assignments on [self]. *)
Definition set_ros_package_path (v : option (list string)) : M unit :=
  modify_self (λ s, {| _ros_package_path := v;
                       _interfaces := _interfaces s;
                       _providers := _providers s;
                       _semantic_interfaces := _semantic_interfaces s |}).

Definition set_interfaces (v : gmap string Interface) : M unit :=
  modify_self (λ s, {| _ros_package_path := _ros_package_path s;
                       _interfaces := v;
                       _providers := _providers s;
                       _semantic_interfaces := _semantic_interfaces s |}).

Definition set_providers (v : gmap string Provider) : M unit :=
  modify_self (λ s, {| _ros_package_path := _ros_package_path s;
                       _interfaces := _interfaces s;
                       _providers := v;
                       _semantic_interfaces := _semantic_interfaces s |}).

Definition set_semantic_interfaces (v : gmap string SemanticInterface) : M unit :=
  modify_self (λ s, {| _ros_package_path := _ros_package_path s;
                       _interfaces := _interfaces s;
                       _providers := _providers s;
                       _semantic_interfaces := v |}).

(** [_initialize_capabilities], lines 70-73. *)
Definition _initialize_capabilities : M unit :=
  set_interfaces ∅ ;;;
  set_providers ∅ ;;;
  set_semantic_interfaces ∅.

(** [_check_name], lines 108-122. *)
Definition _check_name (name type_name : string) : M bool :=
  s <- get_self ;;
  error <-
    (if py_in name (_interfaces s) then
       print (type_name +:+ " " +:+ name +:+ " already declared") ;;;
       ret true
     else if py_in name (_providers s) then
       print (type_name +:+ " " +:+ name +:+ " collides with a provider name") ;;;
       ret true
     else if py_in name (_semantic_interfaces s) then
       print (type_name +:+ " " +:+ name
              +:+ " collides with a semantic_interface name") ;;;
       ret true
     else ret false) ;;
  ret (negb error).

(** The bodies of the three loops of [load_from_ros_package_path],
    lines 92-106. *)
Definition load_interface (i : string) : M unit :=
  let interface := capability_interface_from_file_path i in
  ok <- _check_name (interface_name interface) "interface" ;;
  if negb ok then ret tt
  else s <- get_self ;;
       set_interfaces (<[interface_name interface := interface]> (_interfaces s)).

Definition load_provider (i : string) : M unit :=
  let provider := capability_provider_from_file_path i in
  ok <- _check_name (provider_name provider) "provider" ;;
  if negb ok then ret tt
  else s <- get_self ;;
       set_providers (<[provider_name provider := provider]> (_providers s)).

Definition load_semantic_interface (i : string) : M unit :=
  let semantic_interface := semantic_capability_interface_from_file_path i in
  ok <- _check_name (semantic_interface_name semantic_interface)
                    "semantic_interface" ;;
  if negb ok then ret tt
  else s <- get_self ;;
       set_semantic_interfaces
         (<[semantic_interface_name semantic_interface := semantic_interface]>
            (_semantic_interfaces s)).

(** [load_from_ros_package_path], lines 75-106. *)
Definition load_from_ros_package_path
    (ros_package_path : option (list string)) : M unit :=
  ros_package_path <-
    (if negb (truthy ros_package_path) then
       s <- get_self ;; ret (_ros_package_path s)
     else
       set_ros_package_path ros_package_path ;;; ret ros_package_path) ;;
  _initialize_capabilities ;;;
  let pkgs := _build_package_dict ros_package_path in
  let capabilities := _build_file_index pkgs in
  for_each (list_interface_files capabilities) load_interface ;;;
  for_each (list_provider_files capabilities) load_provider ;;;
  for_each (list_semantic_interface_files capabilities) load_semantic_interface.

(** [__init__], lines 63-66. *)
Definition __init__ (ros_package_path : option (list string)) : M unit :=
  set_ros_package_path ros_package_path ;;;
  _initialize_capabilities ;;;
  load_from_ros_package_path ros_package_path.

(** The stubs, lines 132-148. *)
Definition verify_tree : M unit := raise NotImplemented.
Definition view_capabilities_as_dot (with_errors : bool) : M unit :=
  raise NotImplemented.
Definition advertize_services : M unit := raise NotImplemented.

(** The queries, lines 150-157. *)
Definition get_interfaces : M (list Interface) :=
  s <- get_self ;;
  ret (values (_interfaces s)).

Definition get_providers (interface_name : string) : M (list Provider) :=
  s <- get_self ;;
  ret (filter (λ p, provider_implements p = interface_name)
              (values (_providers s))).

Definition get_semantic_interfaces (interface_name : string)
    : M (list SemanticInterface) :=
  s <- get_self ;;
  ret (filter (λ p, semantic_interface_redefines p = interface_name)
              (values (_semantic_interfaces s))).

(** [CapabilityServer.handle_reload_request], lines 173-176. *)
Definition handle_reload_request : M EmptyResponse :=
  print "Reloading capabilities" ;;;
  load_from_ros_package_path None ;;;
  ret mkEmptyResponse.
End Methods.


(** ** Vocabulary of the properties *)

Section Vocabulary.
Context `{Specs, Discovery}.

(** The world a method leaves behind. *)
Definition after {A} (m : M A) (w : World) : World := snd (m w).

(** The object before [__init__] has run: no path, no entries. *)
Definition blank : CapabilityIndex :=
  {| _ros_package_path := None;
     _interfaces := ∅;
     _providers := ∅;
     _semantic_interfaces := ∅ |}.

(** [CapabilityIndex(ros_package_path)] *)
Definition new_CapabilityIndex (ros_package_path : option (list string))
    (out : list string) : Result unit * World :=
  __init__ ros_package_path {| self := blank; stdout := out |}.

(** The path a reload runs discovery on. *)
Definition effective_path (arg : option (list string)) (s : CapabilityIndex)
    : option (list string) :=
  if truthy arg then arg else _ros_package_path s.

(** The records the three loops go through, in processing order. *)
Definition discovered_interfaces (path : option (list string)) : list Interface :=
  capability_interface_from_file_path
    <$> list_interface_files (_build_file_index (_build_package_dict path)).

Definition discovered_providers (path : option (list string)) : list Provider :=
  capability_provider_from_file_path
    <$> list_provider_files (_build_file_index (_build_package_dict path)).

Definition discovered_semantic_interfaces (path : option (list string))
    : list SemanticInterface :=
  semantic_capability_interface_from_file_path
    <$> list_semantic_interface_files (_build_file_index (_build_package_dict path)).

(** No name is a key of two of the three mappings. *)
Definition names_unique (s : CapabilityIndex) : Prop :=
  ∀ n : string,
    ¬ (is_Some (_interfaces s !! n) ∧ is_Some (_providers s !! n)) ∧
    ¬ (is_Some (_interfaces s !! n) ∧ is_Some (_semantic_interfaces s !! n)) ∧
    ¬ (is_Some (_providers s !! n) ∧ is_Some (_semantic_interfaces s !! n)).

(** The same, on the names the stored entities carry. *)
Definition entity_names_disjoint (s : CapabilityIndex) : Prop :=
  (∀ k1 k2 i p, _interfaces s !! k1 = Some i → _providers s !! k2 = Some p →
                interface_name i ≠ provider_name p) ∧
  (∀ k1 k2 i q, _interfaces s !! k1 = Some i →
                _semantic_interfaces s !! k2 = Some q →
                interface_name i ≠ semantic_interface_name q) ∧
  (∀ k1 k2 p q, _providers s !! k1 = Some p →
                _semantic_interfaces s !! k2 = Some q →
                provider_name p ≠ semantic_interface_name q).

(** Every entry is stored under its own name. *)
Definition keyed_by_name (s : CapabilityIndex) : Prop :=
  (∀ n i, _interfaces s !! n = Some i → interface_name i = n) ∧
  (∀ n p, _providers s !! n = Some p → provider_name p = n) ∧
  (∀ n q, _semantic_interfaces s !! n = Some q → semantic_interface_name q = n).

(** The three mappings of two objects agree. *)
Definition same_contents (s1 s2 : CapabilityIndex) : Prop :=
  _interfaces s1 = _interfaces s2 ∧
  _providers s1 = _providers s2 ∧
  _semantic_interfaces s1 = _semantic_interfaces s2.

(** What [_check_name] answers and prints, as functions of the object. *)
Definition name_free (n : string) (s : CapabilityIndex) : bool :=
  negb (py_in n (_interfaces s) || py_in n (_providers s)
        || py_in n (_semantic_interfaces s)).

Definition diagnostic (n t : string) (s : CapabilityIndex) : list string :=
  if py_in n (_interfaces s) then [t +:+ " " +:+ n +:+ " already declared"]
  else if py_in n (_providers s) then
    [t +:+ " " +:+ n +:+ " collides with a provider name"]
  else if py_in n (_semantic_interfaces s) then
    [t +:+ " " +:+ n +:+ " collides with a semantic_interface name"]
  else [].

(** One round of each loop, on the object alone. *)
Definition add_interface (s : CapabilityIndex) (i : Interface) : CapabilityIndex :=
  if name_free (interface_name i) s then
    {| _ros_package_path := _ros_package_path s;
       _interfaces := <[interface_name i := i]> (_interfaces s);
       _providers := _providers s;
       _semantic_interfaces := _semantic_interfaces s |}
  else s.

Definition add_provider (s : CapabilityIndex) (p : Provider) : CapabilityIndex :=
  if name_free (provider_name p) s then
    {| _ros_package_path := _ros_package_path s;
       _interfaces := _interfaces s;
       _providers := <[provider_name p := p]> (_providers s);
       _semantic_interfaces := _semantic_interfaces s |}
  else s.

Definition add_semantic_interface (s : CapabilityIndex) (q : SemanticInterface)
    : CapabilityIndex :=
  if name_free (semantic_interface_name q) s then
    {| _ros_package_path := _ros_package_path s;
       _interfaces := _interfaces s;
       _providers := _providers s;
       _semantic_interfaces :=
         <[semantic_interface_name q := q]> (_semantic_interfaces s) |}
  else s.

(** The object a reload on [path] ends with. *)
Definition loaded (path : option (list string)) : CapabilityIndex :=
  foldl add_semantic_interface
    (foldl add_provider
       (foldl add_interface
          {| _ros_package_path := path;
             _interfaces := ∅;
             _providers := ∅;
             _semantic_interfaces := ∅ |}
          (discovered_interfaces path))
       (discovered_providers path))
    (discovered_semantic_interfaces path).

(** [n] is a key of one of the three mappings. *)
Definition name_held (n : string) (s : CapabilityIndex) : Prop :=
  is_Some (_interfaces s !! n) ∨ is_Some (_providers s !! n)
  ∨ is_Some (_semantic_interfaces s !! n).

(** The first record called [n] in a list of records. *)
Definition first_named {V} (key : V → string) (n : string) (l : list V)
    : option V :=
  head (filter (λ v, key v = n) l).

(** One round of a loop, on the loop's own mapping [m]: [taken] tells the
    names held by the two other mappings. *)
Definition add_entry {V} (taken : string → bool) (key : V → string)
    (m : gmap string V) (v : V) : gmap string V :=
  if taken (key v) || py_in (key v) m then m else <[key v := v]> m.

(** A loop body that drops the records its check rejects and goes on. *)
Definition skips_rejected (check : string → M bool) (body : string → M unit)
    : Prop :=
  ∀ (f : string) (rest : list string) (w : World),
    fst (check f w) = Ok false →
    fst (body f w) = Ok tt ∧
    self (after (body f) w) = self w ∧
    for_each (f :: rest) body w = for_each rest body (after (body f) w) ∧
    fst (for_each (f :: rest) body w) = Ok tt.
End Vocabulary.

(** ** Process bootstrap *)

Section Bootstrap.
Context `{Specs, Discovery}.

(** [s.split(sep)] for a separator of one character. *)
Fixpoint py_split (sep : ascii) (s : string) : list string :=
  match s with
  | EmptyString => [""]
  | String c s' =>
      if decide (c = sep) then "" :: py_split sep s'
      else match py_split sep s' with
           | h :: t => String c h :: t
           | [] => [String c ""]
           end
  end.

(** [sep.join(l)] *)
Fixpoint py_join (sep : ascii) (l : list string) : string :=
  match l with
  | [] => ""
  | x :: l' =>
      match l' with
      | [] => x
      | _ :: _ => x +:+ String sep (py_join sep l')
      end
  end.

(** [c in s] for a character [c]. *)
Fixpoint has_char (c : ascii) (s : string) : bool :=
  match s with
  | EmptyString => false
  | String c' s' => bool_decide (c' = c) || has_char c s'
  end.

(** Every character of [s] is [c]. *)
Fixpoint only_char (c : ascii) (s : string) : bool :=
  match s with
  | EmptyString => true
  | String c' s' => bool_decide (c' = c) && only_char c s'
  end.

(** [a or b], for an optional string [a]: [None] and the empty string are
    false. *)
Definition py_or (a : option string) (b : string) : string :=
  match a with
  | Some (String c s) => String c s
  | Some EmptyString | None => b
  end.

(** The number of entries of the three mappings. *)
Definition entries (s : CapabilityIndex) : nat :=
  size (_interfaces s) + size (_providers s) + size (_semantic_interfaces s).

(** [main], lines 212-218: from the parsed argument [args.package_path]
    and the environment to the constructed index.  [inl msg] is
    [sys.exit(msg)].  The rest of [main] (the node, the service, the
    printed summaries) is not modelled. *)
Definition main_index (package_path : option string)
    (environ : gmap string string) (out : list string)
    : string + Result unit * World :=
  let ros_package_path :=
    py_or package_path (default "" (environ !! "ROS_PACKAGE_PATH")) in
  let ros_package_path :=
    filter (λ x, x ≠ "") (py_split ":"%char ros_package_path) in
  if negb (truthy (Some ros_package_path)) then
    inl "No package paths specified, set ROS_PACKAGE_PATH or pass them as an argument"
  else
    inr (new_CapabilityIndex (Some ros_package_path) out).
End Bootstrap.

(** ** The output and the statements of a reload *)

Section Statements.
Context `{Specs, Discovery}.

(** What a loop prints, round by round, starting on the object [s]. *)
Fixpoint loop_output {V} (add : CapabilityIndex → V → CapabilityIndex)
    (key : V → string) (t : string) (s : CapabilityIndex) (l : list V)
    : list string :=
  match l with
  | [] => []
  | v :: l' => diagnostic (key v) t s ++ loop_output add key t (add s v) l'
  end.

(** What a reload on [path] prints. *)
Definition load_output (path : option (list string)) : list string :=
  let s0 := {| _ros_package_path := path; _interfaces := ∅;
               _providers := ∅; _semantic_interfaces := ∅ |} in
  let s1 := foldl add_interface s0 (discovered_interfaces path) in
  let s2 := foldl add_provider s1 (discovered_providers path) in
  loop_output add_interface interface_name "interface" s0
    (discovered_interfaces path)
  ++ loop_output add_provider provider_name "provider" s1
       (discovered_providers path)
  ++ loop_output add_semantic_interface semantic_interface_name
       "semantic_interface" s2 (discovered_semantic_interfaces path).

(** The statements [load_from_ros_package_path] executes on the object [s],
    in order: the conditional of lines 81-85, the three assignments of
    [_initialize_capabilities] called at line 88, then the body of each
    loop once for every file (lines 92-106).  Lines 90-91 only compute the
    file lists. *)
Definition load_statements (arg : option (list string)) (s : CapabilityIndex)
    : list (M unit) :=
  let ros_package_path := effective_path arg s in
  let pkgs := _build_package_dict ros_package_path in
  let capabilities := _build_file_index pkgs in
  [ (if negb (truthy arg) then ret tt else set_ros_package_path arg);
    set_interfaces ∅;
    set_providers ∅;
    set_semantic_interfaces ∅ ]
  ++ (load_interface <$> list_interface_files capabilities)
  ++ (load_provider <$> list_provider_files capabilities)
  ++ (load_semantic_interface <$> list_semantic_interface_files capabilities).

(** Every entry of [s] is an entry of [s']. *)
Definition grows (s s' : CapabilityIndex) : Prop :=
  _interfaces s ⊆ _interfaces s' ∧
  _providers s ⊆ _providers s' ∧
  _semantic_interfaces s ⊆ _semantic_interfaces s'.

(** Statements run one after the other. *)
Definition run_statements (ms : list (M unit)) : M unit :=
  for_each ms (λ m, m).

(** The world another thread finds when it runs between the [k]-th
    statement of a reload and the next. *)
Definition seen_after (k : nat) (arg : option (list string)) (w : World) : World :=
  after (run_statements (take k (load_statements arg (self w)))) w.
End Statements.

(** ** A package tree to run the index on *)

Module Example.

Record interface_spec := { iname : string; ifile : string }.
Record provider_spec := { pname : string; pimplements : string; pfile : string }.
Record semantic_spec := { sname : string; sredefines : string; sfile : string }.

Inductive kind := KInterface | KProvider | KSemantic.

#[global] Instance kind_eq_dec : EqDecision kind.
Proof. solve_decision. Defined.

(** One declaration file: root it lives under, kind, path, declared name and
    the interface it refers to. *)
Record decl := {
  d_root : string; d_kind : kind; d_path : string;
  d_name : string; d_ref : string;
}.

Definition tree : list decl :=
  [ {| d_root := "/pkgs/a"; d_kind := KInterface;
       d_path := "/pkgs/a/Minimal.yaml"; d_name := "Minimal"; d_ref := "" |};
    {| d_root := "/pkgs/a"; d_kind := KProvider;
       d_path := "/pkgs/a/P1.yaml"; d_name := "P1"; d_ref := "Minimal" |};
    {| d_root := "/pkgs/a"; d_kind := KProvider;
       d_path := "/pkgs/a/P2.yaml"; d_name := "P2"; d_ref := "Minimal" |};
    {| d_root := "/pkgs/b"; d_kind := KInterface;
       d_path := "/pkgs/b/Minimal.yaml"; d_name := "Minimal"; d_ref := "" |};
    {| d_root := "/pkgs/b"; d_kind := KProvider;
       d_path := "/pkgs/b/Minimal_provider.yaml"; d_name := "Minimal";
       d_ref := "Minimal" |};
    {| d_root := "/pkgs/c"; d_kind := KProvider;
       d_path := "/pkgs/c/nav_first.yaml"; d_name := "Nav"; d_ref := "Minimal" |};
    {| d_root := "/pkgs/c"; d_kind := KProvider;
       d_path := "/pkgs/c/nav_second.yaml"; d_name := "Nav"; d_ref := "Other" |};
    {| d_root := "/pkgs/c"; d_kind := KSemantic;
       d_path := "/pkgs/c/Nav.yaml"; d_name := "Nav"; d_ref := "Minimal" |} ].

Definition find_decl (path : string) : option decl :=
  head (filter (λ d, d_path d = path) tree).

Definition files_of (k : kind) (roots : list string) : list string :=
  d_path <$> filter (λ d, d_kind d = k ∧ d_root d ∈ roots) tree.

#[global] Instance specs : Specs := {|
  Interface := interface_spec;
  Provider := provider_spec;
  SemanticInterface := semantic_spec;
  interface_name := iname;
  provider_name := pname;
  provider_implements := pimplements;
  semantic_interface_name := sname;
  semantic_interface_redefines := sredefines;
  capability_interface_from_file_path path :=
    {| iname := default "" (d_name <$> find_decl path); ifile := path |};
  capability_provider_from_file_path path :=
    {| pname := default "" (d_name <$> find_decl path);
       pimplements := default "" (d_ref <$> find_decl path); pfile := path |};
  semantic_capability_interface_from_file_path path :=
    {| sname := default "" (d_name <$> find_decl path);
       sredefines := default "" (d_ref <$> find_decl path); sfile := path |};
|}.

#[global] Instance discovery : Discovery := {|
  PackageDict := list string;
  FileIndex := list string;
  _build_package_dict path := default [] path;
  _build_file_index pkgs := pkgs;
  list_interface_files := files_of KInterface;
  list_provider_files := files_of KProvider;
  list_semantic_interface_files := files_of KSemantic;
|}.

(** An index on [/pkgs/a], with nothing printed before. *)
Definition start (path : option (list string)) : World :=
  snd (new_CapabilityIndex path []).

End Example.

(** ** Running the methods *)

Section Runs.
Context `{Specs, Discovery}.

Lemma world_eta (w : World) : {| self := self w; stdout := stdout w |} = w.
Proof. by destruct w. Qed.

Lemma py_in_true {V} (k : string) (d : gmap string V) :
  py_in k d = true ↔ is_Some (d !! k).
Proof.
  unfold py_in. destruct (d !! k) as [v|]; split; try done.
Qed.

Lemma py_in_false {V} (k : string) (d : gmap string V) :
  py_in k d = false ↔ d !! k = None.
Proof. unfold py_in. by destruct (d !! k). Qed.

Lemma name_free_true (n : string) (s : CapabilityIndex) :
  name_free n s = true ↔
  _interfaces s !! n = None ∧ _providers s !! n = None
  ∧ _semantic_interfaces s !! n = None.
Proof.
  unfold name_free. rewrite negb_true_iff, !orb_false_iff, !py_in_false.
  tauto.
Qed.

(** [_check_name] never raises: it answers [name_free], prints
    [diagnostic] and leaves the object alone. *)
Lemma _check_name_run (n t : string) (w : World) :
  _check_name n t w
  = (Ok (name_free n (self w)),
     {| self := self w; stdout := stdout w ++ diagnostic n t (self w) |}).
Proof.
  destruct w as [s out].
  unfold _check_name, name_free, diagnostic, bind, get_self, print, ret; simpl.
  destruct (py_in n (_interfaces s)); simpl; [done|].
  destruct (py_in n (_providers s)); simpl; [done|].
  destruct (py_in n (_semantic_interfaces s)); simpl; [done|].
  by rewrite app_nil_r.
Qed.

Lemma load_interface_run (f : string) (w : World) :
  load_interface f w
  = (Ok tt,
     {| self := add_interface (self w) (capability_interface_from_file_path f);
        stdout := stdout w
          ++ diagnostic (interface_name (capability_interface_from_file_path f))
                        "interface" (self w) |}).
Proof.
  unfold load_interface, bind at 1. rewrite _check_name_run.
  unfold add_interface.
  by destruct (name_free _ (self w)).
Qed.

Lemma load_provider_run (f : string) (w : World) :
  load_provider f w
  = (Ok tt,
     {| self := add_provider (self w) (capability_provider_from_file_path f);
        stdout := stdout w
          ++ diagnostic (provider_name (capability_provider_from_file_path f))
                        "provider" (self w) |}).
Proof.
  unfold load_provider, bind at 1. rewrite _check_name_run.
  unfold add_provider.
  by destruct (name_free _ (self w)).
Qed.

Lemma load_semantic_interface_run (f : string) (w : World) :
  load_semantic_interface f w
  = (Ok tt,
     {| self := add_semantic_interface (self w)
                  (semantic_capability_interface_from_file_path f);
        stdout := stdout w
          ++ diagnostic
               (semantic_interface_name
                  (semantic_capability_interface_from_file_path f))
               "semantic_interface" (self w) |}).
Proof.
  unfold load_semantic_interface, bind at 1. rewrite _check_name_run.
  unfold add_semantic_interface.
  by destruct (name_free _ (self w)).
Qed.

(** A loop whose body always completes completes, and the object it ends
    with is the fold of the body's effect on the object. *)
Lemma for_each_run {A V} (parse : A → V) (body : A → M unit)
    (add : CapabilityIndex → V → CapabilityIndex)
    (l : list A) (w : World) :
  (∀ x w0, ∃ out, body x w0
     = (Ok tt, {| self := add (self w0) (parse x); stdout := stdout w0 ++ out |})) →
  ∃ out, for_each l body w
     = (Ok tt, {| self := foldl add (self w) (parse <$> l);
                  stdout := stdout w ++ out |}).
Proof.
  intros Hbody. revert w. induction l as [|x l IH]; intros w; simpl.
  - exists []. unfold ret. by rewrite app_nil_r, world_eta.
  - unfold bind. destruct (Hbody x w) as [out1 ->].
    destruct (IH {| self := add (self w) (parse x); stdout := stdout w ++ out1 |})
      as [out2 ->]; simpl.
    exists (out1 ++ out2). by rewrite app_assoc.
Qed.

(** Run the loop at the head of the goal. *)
Ltac run_loop parse add body_run out :=
  match goal with
  | |- context [for_each ?l ?body ?w] =>
      let E := fresh "E" in
      destruct (for_each_run parse body add l w) as [out E];
      [ intros ? ?; eexists; apply body_run
      | rewrite E; clear E; simpl ]
  end.

Lemma _initialize_capabilities_run (w : World) :
  _initialize_capabilities w
  = (Ok tt,
     {| self := {| _ros_package_path := _ros_package_path (self w);
                   _interfaces := ∅; _providers := ∅;
                   _semantic_interfaces := ∅ |};
        stdout := stdout w |}).
Proof. done. Qed.

(** A reload never raises, ends with [loaded] on the effective path and only
    appends to the output. *)
Lemma load_from_ros_package_path_run (arg : option (list string)) (w : World) :
  ∃ out, load_from_ros_package_path arg w
     = (Ok tt, {| self := loaded (effective_path arg (self w));
                  stdout := stdout w ++ out |}).
Proof.
  unfold load_from_ros_package_path, effective_path, loaded,
    discovered_interfaces, discovered_providers, discovered_semantic_interfaces.
  set (w0 := {| self := {| _ros_package_path :=
                             if truthy arg then arg else _ros_package_path (self w);
                           _interfaces := ∅; _providers := ∅;
                           _semantic_interfaces := ∅ |};
                stdout := stdout w |}).
  set (path := if truthy arg then arg else _ros_package_path (self w)).
  assert (∀ k : option (list string) → M unit,
            bind (if negb (truthy arg)
                  then bind get_self (λ s, ret (_ros_package_path s))
                  else bind (set_ros_package_path arg) (λ _, ret arg))
                 (λ p, bind _initialize_capabilities (λ _, k p)) w
            = k path w0) as ->.
  { intros k. subst path w0. destruct w as [s out].
    by destruct (truthy arg). }
  unfold bind.
  run_loop capability_interface_from_file_path add_interface
    load_interface_run out1.
  run_loop capability_provider_from_file_path add_provider
    load_provider_run out2.
  run_loop semantic_capability_interface_from_file_path add_semantic_interface
    load_semantic_interface_run out3.
  exists (out1 ++ out2 ++ out3). simpl. by rewrite !app_assoc.
Qed.

Lemma __init___run (arg : option (list string)) (w : World) :
  ∃ out, __init__ arg w
     = (Ok tt, {| self := loaded arg; stdout := stdout w ++ out |}).
Proof.
  unfold __init__, bind; simpl.
  destruct (load_from_ros_package_path_run arg
    {| self := {| _ros_package_path := arg; _interfaces := ∅;
                  _providers := ∅; _semantic_interfaces := ∅ |};
       stdout := stdout w |}) as [out Hrun].
  exists out. rewrite Hrun. simpl. do 3 f_equal.
  unfold effective_path; simpl. by destruct (truthy arg).
Qed.
End Runs.

(** ** What a reload leaves in the three mappings *)

Section Loaded.
Context `{Specs, Discovery}.

Lemma first_named_cons {V} (key : V → string) (n : string) (v : V) (l : list V) :
  first_named key n (v :: l)
  = if decide (key v = n) then Some v else first_named key n l.
Proof.
  unfold first_named. rewrite filter_cons. by destruct (decide (key v = n)).
Qed.

Lemma first_named_Some {V} (key : V → string) (n : string) (l : list V) (v : V) :
  first_named key n l = Some v → key v = n ∧ v ∈ l.
Proof.
  induction l as [|x l IH]; [done|].
  rewrite first_named_cons. destruct (decide (key x = n)) as [Hx|Hx].
  - intros [= ->]. split; [done|]. apply list_elem_of_here.
  - intros Hv. destruct (IH Hv) as [? ?]. split; [done|].
    by apply list_elem_of_further.
Qed.

Lemma first_named_is_Some {V} (key : V → string) (n : string) (l : list V) (v : V) :
  v ∈ l → key v = n → is_Some (first_named key n l).
Proof.
  induction l as [|x l IH]; intros Hin Hkey.
  - by apply elem_of_nil in Hin.
  - rewrite first_named_cons. destruct (decide (key x = n)); [by eexists|].
    apply elem_of_cons in Hin as [->|Hin]; [done|]. by apply IH.
Qed.

(** A loop keeps the first record of each name that the other mappings do
    not hold. *)
Lemma foldl_add_entry_lookup {V} (taken : string → bool) (key : V → string)
    (l : list V) (m : gmap string V) (n : string) :
  foldl (add_entry taken key) m l !! n
  = match m !! n with
    | Some v => Some v
    | None => if taken n then None else first_named key n l
    end.
Proof.
  revert m. induction l as [|v l IH]; intros m; simpl.
  - destruct (m !! n); [done|]. by destruct (taken n).
  - rewrite IH, first_named_cons. unfold add_entry, py_in.
    destruct (decide (key v = n)) as [<-|Hne].
    + destruct (taken (key v)) eqn:Ht; simpl.
      * by destruct (m !! key v).
      * destruct (m !! key v) eqn:Hm; simpl; [by rewrite Hm|].
        by rewrite lookup_insert_eq.
    + destruct (taken (key v) || (if m !! key v is Some _ then true else false));
        [done|].
      by rewrite lookup_insert_ne.
Qed.

Lemma add_interface_fields (s : CapabilityIndex) (i : Interface) :
  _ros_package_path (add_interface s i) = _ros_package_path s ∧
  _interfaces (add_interface s i)
  = add_entry (λ n, py_in n (_providers s) || py_in n (_semantic_interfaces s))
              interface_name (_interfaces s) i ∧
  _providers (add_interface s i) = _providers s ∧
  _semantic_interfaces (add_interface s i) = _semantic_interfaces s.
Proof.
  unfold add_interface, add_entry, name_free.
  destruct (py_in _ (_interfaces s)), (py_in _ (_providers s)),
    (py_in _ (_semantic_interfaces s)); done.
Qed.

Lemma add_provider_fields (s : CapabilityIndex) (p : Provider) :
  _ros_package_path (add_provider s p) = _ros_package_path s ∧
  _interfaces (add_provider s p) = _interfaces s ∧
  _providers (add_provider s p)
  = add_entry (λ n, py_in n (_interfaces s) || py_in n (_semantic_interfaces s))
              provider_name (_providers s) p ∧
  _semantic_interfaces (add_provider s p) = _semantic_interfaces s.
Proof.
  unfold add_provider, add_entry, name_free.
  destruct (py_in _ (_interfaces s)), (py_in _ (_providers s)),
    (py_in _ (_semantic_interfaces s)); done.
Qed.

Lemma add_semantic_interface_fields (s : CapabilityIndex) (q : SemanticInterface) :
  _ros_package_path (add_semantic_interface s q) = _ros_package_path s ∧
  _interfaces (add_semantic_interface s q) = _interfaces s ∧
  _providers (add_semantic_interface s q) = _providers s ∧
  _semantic_interfaces (add_semantic_interface s q)
  = add_entry (λ n, py_in n (_interfaces s) || py_in n (_providers s))
              semantic_interface_name (_semantic_interfaces s) q.
Proof.
  unfold add_semantic_interface, add_entry, name_free.
  destruct (py_in _ (_interfaces s)), (py_in _ (_providers s)),
    (py_in _ (_semantic_interfaces s)); done.
Qed.

Lemma foldl_add_interface_fields (l : list Interface) (s : CapabilityIndex) :
  _ros_package_path (foldl add_interface s l) = _ros_package_path s ∧
  _interfaces (foldl add_interface s l)
  = foldl (add_entry (λ n, py_in n (_providers s)
                           || py_in n (_semantic_interfaces s)) interface_name)
          (_interfaces s) l ∧
  _providers (foldl add_interface s l) = _providers s ∧
  _semantic_interfaces (foldl add_interface s l) = _semantic_interfaces s.
Proof.
  revert s. induction l as [|i l IH]; intros s; simpl; [done|].
  destruct (IH (add_interface s i)) as (-> & -> & -> & ->).
  destruct (add_interface_fields s i) as (-> & -> & -> & ->). done.
Qed.

Lemma foldl_add_provider_fields (l : list Provider) (s : CapabilityIndex) :
  _ros_package_path (foldl add_provider s l) = _ros_package_path s ∧
  _interfaces (foldl add_provider s l) = _interfaces s ∧
  _providers (foldl add_provider s l)
  = foldl (add_entry (λ n, py_in n (_interfaces s)
                           || py_in n (_semantic_interfaces s)) provider_name)
          (_providers s) l ∧
  _semantic_interfaces (foldl add_provider s l) = _semantic_interfaces s.
Proof.
  revert s. induction l as [|p l IH]; intros s; simpl; [done|].
  destruct (IH (add_provider s p)) as (-> & -> & -> & ->).
  destruct (add_provider_fields s p) as (-> & -> & -> & ->). done.
Qed.

Lemma foldl_add_semantic_interface_fields (l : list SemanticInterface)
    (s : CapabilityIndex) :
  _ros_package_path (foldl add_semantic_interface s l) = _ros_package_path s ∧
  _interfaces (foldl add_semantic_interface s l) = _interfaces s ∧
  _providers (foldl add_semantic_interface s l) = _providers s ∧
  _semantic_interfaces (foldl add_semantic_interface s l)
  = foldl (add_entry (λ n, py_in n (_interfaces s) || py_in n (_providers s))
                     semantic_interface_name)
          (_semantic_interfaces s) l.
Proof.
  revert s. induction l as [|q l IH]; intros s; simpl; [done|].
  destruct (IH (add_semantic_interface s q)) as (-> & -> & -> & ->).
  destruct (add_semantic_interface_fields s q) as (-> & -> & -> & ->). done.
Qed.

(** The complete description of the object a reload ends with. *)
Lemma loaded_lookup (path : option (list string)) (n : string) :
  _ros_package_path (loaded path) = path ∧
  _interfaces (loaded path) !! n
  = first_named interface_name n (discovered_interfaces path) ∧
  _providers (loaded path) !! n
  = (if py_in n (_interfaces (loaded path)) then None
     else first_named provider_name n (discovered_providers path)) ∧
  _semantic_interfaces (loaded path) !! n
  = (if py_in n (_interfaces (loaded path)) || py_in n (_providers (loaded path))
     then None
     else first_named semantic_interface_name n
            (discovered_semantic_interfaces path)).
Proof.
  unfold loaded.
  set (s0 := {| _ros_package_path := path; _interfaces := ∅; _providers := ∅;
                _semantic_interfaces := ∅ |}).
  set (s1 := foldl add_interface s0 (discovered_interfaces path)).
  set (s2 := foldl add_provider s1 (discovered_providers path)).
  destruct (foldl_add_semantic_interface_fields
              (discovered_semantic_interfaces path) s2) as (-> & -> & -> & ->).
  destruct (foldl_add_provider_fields (discovered_providers path) s1)
    as (Hpath2 & Hi2 & Hp2 & Hs2).
  destruct (foldl_add_interface_fields (discovered_interfaces path) s0)
    as (Hpath1 & Hi1 & Hp1 & Hs1).
  fold s1 in Hpath1, Hi1, Hp1, Hs1. fold s2 in Hpath2, Hi2, Hp2, Hs2.
  rewrite foldl_add_entry_lookup.
  rewrite Hs2, Hs1, Hp2, Hi2, Hpath2, Hpath1. simpl.
  rewrite foldl_add_entry_lookup, Hp1, Hs1, Hi1. simpl.
  rewrite foldl_add_entry_lookup. simpl.
  rewrite !lookup_empty. unfold py_in at 1 2. rewrite !lookup_empty. simpl.
  rewrite orb_false_r. done.
Qed.
End Loaded.

(** ** Invariants of the loaded index *)

Section Invariants.
Context `{Specs, Discovery}.

Lemma loaded_names_unique (path : option (list string)) :
  names_unique (loaded path).
Proof.
  intros n. destruct (loaded_lookup path n) as (_ & _ & Hp & Hs).
  repeat split; intros [Hx Hy].
  - apply py_in_true in Hx. rewrite Hx in Hp. rewrite Hp in Hy.
    by destruct Hy.
  - apply py_in_true in Hx. rewrite Hx in Hs. rewrite Hs in Hy.
    by destruct Hy.
  - apply py_in_true in Hx. rewrite Hx, orb_true_r in Hs. rewrite Hs in Hy.
    by destruct Hy.
Qed.

Lemma loaded_keyed_by_name (path : option (list string)) :
  keyed_by_name (loaded path).
Proof.
  repeat split; intros n v Hv;
    destruct (loaded_lookup path n) as (_ & Hi & Hp & Hs).
  - rewrite Hi in Hv. by apply first_named_Some in Hv as [? _].
  - rewrite Hp in Hv. destruct (py_in n _); [done|].
    by apply first_named_Some in Hv as [? _].
  - rewrite Hs in Hv. destruct (_ || _); [done|].
    by apply first_named_Some in Hv as [? _].
Qed.

Lemma effective_path_stored (arg : option (list string)) (s : CapabilityIndex) :
  effective_path arg s
  = match arg with
    | Some (r :: rs) => Some (r :: rs)
    | _ => _ros_package_path s
    end.
Proof. unfold effective_path. by destruct arg as [[|r rs]|]. Qed.

Lemma loaded_path (path : option (list string)) :
  _ros_package_path (loaded path) = path.
Proof. by destruct (loaded_lookup path "") as (? & _). Qed.

Lemma self_after_load (arg : option (list string)) (w : World) :
  self (after (load_from_ros_package_path arg) w)
  = loaded (effective_path arg (self w)).
Proof.
  unfold after. by destruct (load_from_ros_package_path_run arg w) as [out ->].
Qed.

Lemma self_after_handle_reload_request (w : World) :
  handle_reload_request w
  = (Ok mkEmptyResponse,
     after (load_from_ros_package_path None)
       {| self := self w; stdout := stdout w ++ ["Reloading capabilities"] |}).
Proof.
  unfold handle_reload_request, bind, print, after.
  by destruct (load_from_ros_package_path_run None
    {| self := self w; stdout := stdout w ++ ["Reloading capabilities"] |})
    as [out ->].
Qed.

Lemma loaded_entity_names_disjoint (path : option (list string)) :
  entity_names_disjoint (loaded path).
Proof.
  destruct (loaded_keyed_by_name path) as (Hi & Hp & Hs).
  repeat split; intros k1 k2 x y Hx Hy Heq.
  - apply Hi in Hx as Hkx. apply Hp in Hy as Hky.
    destruct (loaded_names_unique path k1) as (Hno & _ & _). apply Hno.
    split; [by eexists|]. exists y. by rewrite <- Hkx, Heq, Hky.
  - apply Hi in Hx as Hkx. apply Hs in Hy as Hky.
    destruct (loaded_names_unique path k1) as (_ & Hno & _). apply Hno.
    split; [by eexists|]. exists y. by rewrite <- Hkx, Heq, Hky.
  - apply Hp in Hx as Hkx. apply Hs in Hy as Hky.
    destruct (loaded_names_unique path k1) as (_ & _ & Hno). apply Hno.
    split; [by eexists|]. exists y. by rewrite <- Hkx, Heq, Hky.
Qed.

(** C1. After the constructor or any reload has run, whatever the discovery
    collaborators return, no name is a key of more than one of the three
    mappings, and no two entities stored in different mappings carry the
    same name; both operations complete without raising. *)
Theorem names_unique_after_load (arg : option (list string)) (w : World)
    (out : list string) :
  (∃ w', load_from_ros_package_path arg w = (Ok tt, w')
         ∧ names_unique (self w') ∧ entity_names_disjoint (self w')) ∧
  (∃ w', new_CapabilityIndex arg out = (Ok tt, w')
         ∧ names_unique (self w') ∧ entity_names_disjoint (self w')).
Proof.
  split.
  - destruct (load_from_ros_package_path_run arg w) as [o ->].
    eexists; split_and!; [done| |]; simpl.
    + apply loaded_names_unique.
    + apply loaded_entity_names_disjoint.
  - unfold new_CapabilityIndex.
    destruct (__init___run arg {| self := blank; stdout := out |}) as [o ->].
    eexists; split_and!; [done| |]; simpl.
    + apply loaded_names_unique.
    + apply loaded_entity_names_disjoint.
Qed.

(** C10. After the constructor and after every reload, each of the three
    mappings stores every entity under that entity's own name. *)
Theorem keyed_by_name_after_load (arg : option (list string)) (w : World)
    (out : list string) :
  (∃ w', load_from_ros_package_path arg w = (Ok tt, w') ∧ keyed_by_name (self w')) ∧
  (∃ w', new_CapabilityIndex arg out = (Ok tt, w') ∧ keyed_by_name (self w')).
Proof.
  split.
  - destruct (load_from_ros_package_path_run arg w) as [o ->].
    eexists; split; [done|]. apply loaded_keyed_by_name.
  - unfold new_CapabilityIndex.
    destruct (__init___run arg {| self := blank; stdout := out |}) as [o ->].
    eexists; split; [done|]. apply loaded_keyed_by_name.
Qed.

(** C9. A reload that follows a reload, with the same collaborators and
    with either no argument or the same argument, completes and leaves the
    three mappings (and the stored path) as the first reload left them; the
    outcome of a reload does not depend on the mappings it started from. *)
Theorem reload_idempotent (arg : option (list string)) (w : World) :
  let w1 := after (load_from_ros_package_path arg) w in
  fst (load_from_ros_package_path None w1) = Ok tt ∧
  self (after (load_from_ros_package_path None) w1) = self w1 ∧
  same_contents (self (after (load_from_ros_package_path None) w1)) (self w1) ∧
  fst (load_from_ros_package_path arg w1) = Ok tt ∧
  same_contents (self (after (load_from_ros_package_path arg) w1)) (self w1) ∧
  same_contents (self (after handle_reload_request w1)) (self w1) ∧
  (∀ i p q,
     self (after (load_from_ros_package_path arg)
            {| self := {| _ros_package_path := _ros_package_path (self w);
                          _interfaces := i; _providers := p;
                          _semantic_interfaces := q |};
               stdout := stdout w |})
     = self w1).
Proof.
  intros w1.
  assert (self w1 = loaded (effective_path arg (self w))) as Hw1
    by apply self_after_load.
  assert (self (after (load_from_ros_package_path None) w1) = self w1) as Hnone.
  { rewrite self_after_load, Hw1. unfold effective_path at 1; simpl.
    by rewrite loaded_path. }
  assert (self (after (load_from_ros_package_path arg) w1) = self w1) as Harg.
  { rewrite self_after_load, Hw1. f_equal.
    unfold effective_path. destruct (truthy arg); [done|].
    by rewrite loaded_path. }
  split_and!.
  - by destruct (load_from_ros_package_path_run None w1) as [o ->].
  - done.
  - by rewrite Hnone.
  - by destruct (load_from_ros_package_path_run arg w1) as [o ->].
  - by rewrite Harg.
  - unfold after at 1. rewrite self_after_handle_reload_request; simpl.
    rewrite self_after_load; simpl. rewrite Hw1.
    unfold effective_path at 1; simpl. by rewrite loaded_path.
  - intros i p q. by rewrite self_after_load, Hw1.
Qed.
End Invariants.

(** ** The stored package path *)

Section StoredPath.
Context `{Specs, Discovery}.

(** C3, as the code has it. A reload replaces the stored path by its argument
    when the argument is a non-empty sequence; when the argument is absent
    or is the empty sequence the stored path is kept and reused.  Discovery
    runs on the resulting path, and a reload without argument after
    [Reload(newRoots)], [newRoots] non-empty, reuses [newRoots]. *)
Theorem stored_path_after_load (arg : option (list string)) (w : World) :
  _ros_package_path (self (after (load_from_ros_package_path arg) w))
  = match arg with
    | Some (r :: rs) => Some (r :: rs)
    | Some [] | None => _ros_package_path (self w)
    end ∧
  self (after (load_from_ros_package_path arg) w)
  = loaded match arg with
           | Some (r :: rs) => Some (r :: rs)
           | Some [] | None => _ros_package_path (self w)
           end ∧
  _ros_package_path (self (after (load_from_ros_package_path (Some [])) w))
  = _ros_package_path (self w) ∧
  ∀ r rs,
    self (after (load_from_ros_package_path None)
           (after (load_from_ros_package_path (Some (r :: rs))) w))
    = loaded (Some (r :: rs)).
Proof.
  split_and!.
  - rewrite self_after_load, loaded_path, effective_path_stored.
    by destruct arg as [[|r rs]|].
  - rewrite self_after_load, effective_path_stored.
    by destruct arg as [[|r rs]|].
  - by rewrite self_after_load, loaded_path.
  - intros r rs. rewrite !self_after_load. unfold effective_path; simpl.
    by rewrite loaded_path.
Qed.
End StoredPath.

(** C3, as stated, fails: on an index built on [/pkgs/a], a reload whose
    argument is the empty sequence keeps [/pkgs/a] as the stored path. *)
Lemma empty_override_keeps_stored_path :
  _ros_package_path
    (self (after (load_from_ros_package_path (Some []))
             (Example.start (Some ["/pkgs/a"]))))
  = Some ["/pkgs/a"] ∧
  _ros_package_path
    (self (after (load_from_ros_package_path (Some []))
             (Example.start (Some ["/pkgs/a"]))))
  ≠ Some [].
Proof. split; [by vm_compute|]. vm_compute. discriminate. Qed.

(** ** What a reload prints *)

Section Output.
Context `{Specs, Discovery}.

Lemma loop_output_app {V} (add : CapabilityIndex → V → CapabilityIndex)
    (key : V → string) (t : string) (l1 l2 : list V) (s : CapabilityIndex) :
  loop_output add key t s (l1 ++ l2)
  = loop_output add key t s l1 ++ loop_output add key t (foldl add s l1) l2.
Proof.
  revert s. induction l1 as [|v l1 IH]; intros s; simpl; [done|].
  by rewrite IH, app_assoc.
Qed.

Lemma for_each_run_exact {A V} (parse : A → V) (body : A → M unit)
    (add : CapabilityIndex → V → CapabilityIndex) (key : V → string)
    (t : string) (l : list A) (w : World) :
  (∀ x w0, body x w0
     = (Ok tt, {| self := add (self w0) (parse x);
                  stdout := stdout w0 ++ diagnostic (key (parse x)) t (self w0) |})) →
  for_each l body w
  = (Ok tt, {| self := foldl add (self w) (parse <$> l);
               stdout := stdout w
                 ++ loop_output add key t (self w) (parse <$> l) |}).
Proof.
  intros Hbody. revert w. induction l as [|x l IH]; intros w; csimpl.
  - unfold ret. by rewrite app_nil_r, world_eta.
  - unfold bind. rewrite Hbody, IH; simpl. by rewrite app_assoc.
Qed.

(** A reload, exactly: it never raises, leaves [loaded] and appends
    [load_output]. *)
Lemma load_from_ros_package_path_exact (arg : option (list string)) (w : World) :
  load_from_ros_package_path arg w
  = (Ok tt, {| self := loaded (effective_path arg (self w));
               stdout := stdout w ++ load_output (effective_path arg (self w)) |}).
Proof.
  unfold load_from_ros_package_path, effective_path, loaded, load_output,
    discovered_interfaces, discovered_providers, discovered_semantic_interfaces.
  set (w0 := {| self := {| _ros_package_path :=
                             if truthy arg then arg else _ros_package_path (self w);
                           _interfaces := ∅; _providers := ∅;
                           _semantic_interfaces := ∅ |};
                stdout := stdout w |}).
  set (path := if truthy arg then arg else _ros_package_path (self w)).
  assert (∀ k : option (list string) → M unit,
            bind (if negb (truthy arg)
                  then bind get_self (λ s, ret (_ros_package_path s))
                  else bind (set_ros_package_path arg) (λ _, ret arg))
                 (λ p, bind _initialize_capabilities (λ _, k p)) w
            = k path w0) as ->.
  { intros k. subst path w0. destruct w as [s out].
    by destruct (truthy arg). }
  unfold bind.
  rewrite (for_each_run_exact capability_interface_from_file_path _
             add_interface interface_name "interface")
    by apply load_interface_run.
  rewrite (for_each_run_exact capability_provider_from_file_path _
             add_provider provider_name "provider")
    by apply load_provider_run.
  rewrite (for_each_run_exact semantic_capability_interface_from_file_path _
             add_semantic_interface semantic_interface_name "semantic_interface")
    by apply load_semantic_interface_run.
  simpl. by rewrite <- !app_assoc.
Qed.

Lemma py_in_insert {V} (n k : string) (v : V) (m : gmap string V) :
  py_in n (<[k:=v]> m) = bool_decide (k = n) || py_in n m.
Proof.
  unfold py_in. destruct (decide (k = n)) as [->|Hne].
  - by rewrite lookup_insert_eq, bool_decide_eq_true_2.
  - by rewrite lookup_insert_ne, bool_decide_eq_false_2.
Qed.

(** A name that is held stays held, and a record's name is held once its
    round is over. *)
Lemma name_free_add_interface (s : CapabilityIndex) (i : Interface) (n : string) :
  (name_free n s = false → name_free n (add_interface s i) = false) ∧
  name_free (interface_name i) (add_interface s i) = false.
Proof.
  unfold add_interface.
  destruct (name_free (interface_name i) s) eqn:Hfree; [|by split].
  unfold name_free; simpl. rewrite !py_in_insert.
  rewrite (bool_decide_eq_true_2 (interface_name i = interface_name i)) by done.
  split; [|done].
  intros Hn%negb_false_iff. apply negb_false_iff.
  apply orb_true_iff in Hn as [Hn|Hn]; [|by rewrite Hn, orb_true_r].
  apply orb_true_iff in Hn as [Hn|Hn]; rewrite Hn;
    by rewrite ?orb_true_r.
Qed.

Lemma name_free_add_provider (s : CapabilityIndex) (p : Provider) (n : string) :
  (name_free n s = false → name_free n (add_provider s p) = false) ∧
  name_free (provider_name p) (add_provider s p) = false.
Proof.
  unfold add_provider.
  destruct (name_free (provider_name p) s) eqn:Hfree; [|by split].
  unfold name_free; simpl. rewrite !py_in_insert.
  rewrite (bool_decide_eq_true_2 (provider_name p = provider_name p)) by done.
  split; [|by rewrite orb_true_r].
  intros Hn%negb_false_iff. apply negb_false_iff.
  apply orb_true_iff in Hn as [Hn|Hn]; [|by rewrite Hn, orb_true_r].
  apply orb_true_iff in Hn as [Hn|Hn]; rewrite Hn;
    by rewrite ?orb_true_r.
Qed.

Lemma name_free_add_semantic_interface (s : CapabilityIndex)
    (q : SemanticInterface) (n : string) :
  (name_free n s = false → name_free n (add_semantic_interface s q) = false) ∧
  name_free (semantic_interface_name q) (add_semantic_interface s q) = false.
Proof.
  unfold add_semantic_interface.
  destruct (name_free (semantic_interface_name q) s) eqn:Hfree; [|by split].
  unfold name_free; simpl. rewrite !py_in_insert.
  rewrite (bool_decide_eq_true_2 (semantic_interface_name q = semantic_interface_name q)) by done.
  split; [|by rewrite !orb_true_r].
  intros Hn%negb_false_iff. apply negb_false_iff.
  apply orb_true_iff in Hn as [Hn|Hn]; [|by rewrite Hn, !orb_true_r].
  apply orb_true_iff in Hn as [Hn|Hn]; rewrite Hn;
    by rewrite ?orb_true_r.
Qed.

Lemma name_taken_after_loop {V} (add : CapabilityIndex → V → CapabilityIndex)
    (key : V → string) (l : list V) (s : CapabilityIndex) (v : V) :
  (∀ s v n, (name_free n s = false → name_free n (add s v) = false)
            ∧ name_free (key v) (add s v) = false) →
  v ∈ l → name_free (key v) (foldl add s l) = false.
Proof.
  intros Hadd. revert s. induction l as [|x l IH]; intros s Hin.
  - by apply elem_of_nil in Hin.
  - assert (∀ l' s' n, name_free n s' = false
                       → name_free n (foldl add s' l') = false) as Hkeep.
    { clear -Hadd. intros l'. induction l' as [|y l' IH']; intros s' n Hn; simpl;
        [done|]. apply IH'. by destruct (Hadd s' y n) as [Hk _]; apply Hk. }
    simpl. apply elem_of_cons in Hin as [->|Hin]; [|by apply IH].
    apply Hkeep. by destruct (Hadd s x (key x)) as [_ ?].
Qed.

(** The line printed for a name that is held. *)
Lemma diagnostic_rejected (n t : string) (s : CapabilityIndex) :
  name_free n s = false →
  diagnostic n t s
  = [ if py_in n (_interfaces s) then t +:+ " " +:+ n +:+ " already declared"
      else if py_in n (_providers s) then
        t +:+ " " +:+ n +:+ " collides with a provider name"
      else t +:+ " " +:+ n +:+ " collides with a semantic_interface name" ].
Proof.
  unfold name_free, diagnostic.
  by destruct (py_in n (_interfaces s)), (py_in n (_providers s)),
    (py_in n (_semantic_interfaces s)).
Qed.

(** A record that comes after a record of the same name in its list is
    reported: its line is part of what the loop prints. *)
Lemma later_record_reported {V} (add : CapabilityIndex → V → CapabilityIndex)
    (key : V → string) (t : string) (s : CapabilityIndex)
    (l1 l2 : list V) (v v' : V) :
  (∀ s v n, (name_free n s = false → name_free n (add s v) = false)
            ∧ name_free (key v) (add s v) = false) →
  v' ∈ l1 → key v' = key v →
  name_free (key v) (foldl add s l1) = false ∧
  ∀ line, diagnostic (key v) t (foldl add s l1) = [line] →
          line ∈ loop_output add key t s (l1 ++ v :: l2).
Proof.
  intros Hadd Hin Hkey.
  assert (name_free (key v) (foldl add s l1) = false) as Hheld.
  { rewrite <- Hkey. by apply name_taken_after_loop. }
  split; [done|]. intros line Hline.
  rewrite loop_output_app; simpl. rewrite Hline.
  apply elem_of_app. right. apply list_elem_of_here.
Qed.
End Output.

(** ** Collisions *)

Section Collisions.
Context `{Specs, Discovery}.

Lemma for_each_completes {A V} (parse : A → V) (body : A → M unit)
    (add : CapabilityIndex → V → CapabilityIndex) (l : list A) (w : World) :
  (∀ x w0, ∃ out, body x w0
     = (Ok tt, {| self := add (self w0) (parse x); stdout := stdout w0 ++ out |})) →
  fst (for_each l body w) = Ok tt.
Proof.
  intros Hbody. by destruct (for_each_run parse body add l w Hbody) as [out ->].
Qed.

(** C2, as the code has it. Within a single kind, when two discovered
    records share a name, the later-processed one is skipped with a
    collision diagnostic and never overwrites: an entry of a mapping is
    always the first discovered record of that kind with its name; a record
    whose name is already a key of its own mapping leaves the object
    unchanged and prints one line; and the output of the reload contains a
    line for every record that follows a record of the same name in its
    list.  The uniqueness check inspects all three mappings, the record's
    own included. *)
Theorem first_of_a_name_is_kept (arg : option (list string)) (w : World)
    (n : string) :
  let path := effective_path arg (self w) in
  let s' := self (after (load_from_ros_package_path arg) w) in
  (∀ i, _interfaces s' !! n = Some i →
        first_named interface_name n (discovered_interfaces path) = Some i) ∧
  (∀ p, _providers s' !! n = Some p →
        first_named provider_name n (discovered_providers path) = Some p) ∧
  (∀ q, _semantic_interfaces s' !! n = Some q →
        first_named semantic_interface_name n
          (discovered_semantic_interfaces path) = Some q) ∧
  (∀ f w0,
     let m := interface_name (capability_interface_from_file_path f) in
     is_Some (_interfaces (self w0) !! m) →
     self (after (load_interface f) w0) = self w0 ∧
     stdout (after (load_interface f) w0)
     = stdout w0 ++ ["interface" +:+ " " +:+ m +:+ " already declared"]) ∧
  (∀ f w0,
     let m := provider_name (capability_provider_from_file_path f) in
     is_Some (_providers (self w0) !! m) →
     self (after (load_provider f) w0) = self w0 ∧
     stdout (after (load_provider f) w0)
     = stdout w0
       ++ [ if py_in m (_interfaces (self w0))
            then "provider" +:+ " " +:+ m +:+ " already declared"
            else "provider" +:+ " " +:+ m +:+ " collides with a provider name" ]) ∧
  (∀ f w0,
     let m := semantic_interface_name
                (semantic_capability_interface_from_file_path f) in
     is_Some (_semantic_interfaces (self w0) !! m) →
     self (after (load_semantic_interface f) w0) = self w0 ∧
     stdout (after (load_semantic_interface f) w0)
     = stdout w0
       ++ [ if py_in m (_interfaces (self w0))
            then "semantic_interface" +:+ " " +:+ m +:+ " already declared"
            else if py_in m (_providers (self w0))
            then "semantic_interface" +:+ " " +:+ m
                 +:+ " collides with a provider name"
            else "semantic_interface" +:+ " " +:+ m
                 +:+ " collides with a semantic_interface name" ]) ∧
  (∀ t w0,
     fst (_check_name n t w0)
     = Ok (negb (py_in n (_interfaces (self w0))
                 || py_in n (_providers (self w0))
                 || py_in n (_semantic_interfaces (self w0))))) ∧
  (∃ out,
     stdout (after (load_from_ros_package_path arg) w) = stdout w ++ out ∧
     (∀ l1 i l2 i',
        discovered_interfaces path = l1 ++ i :: l2 →
        i' ∈ l1 → interface_name i' = interface_name i →
        ("interface" +:+ " " +:+ interface_name i +:+ " already declared") ∈ out) ∧
     (∀ l1 p l2 p',
        discovered_providers path = l1 ++ p :: l2 →
        p' ∈ l1 → provider_name p' = provider_name p →
        ("provider" +:+ " " +:+ provider_name p +:+ " already declared") ∈ out
        ∨ ("provider" +:+ " " +:+ provider_name p
           +:+ " collides with a provider name") ∈ out) ∧
     (∀ l1 q l2 q',
        discovered_semantic_interfaces path = l1 ++ q :: l2 →
        q' ∈ l1 → semantic_interface_name q' = semantic_interface_name q →
        ("semantic_interface" +:+ " " +:+ semantic_interface_name q
         +:+ " already declared") ∈ out
        ∨ ("semantic_interface" +:+ " " +:+ semantic_interface_name q
           +:+ " collides with a provider name") ∈ out
        ∨ ("semantic_interface" +:+ " " +:+ semantic_interface_name q
           +:+ " collides with a semantic_interface name") ∈ out)).
Proof.
  intros path s'. subst s'. rewrite self_after_load. fold path.
  destruct (loaded_lookup path n) as (_ & Hi & Hp & Hs).
  split_and!.
  - intros i Hl. by rewrite <- Hi.
  - intros p Hl. rewrite Hp in Hl. by destruct (py_in n _).
  - intros q Hl. rewrite Hs in Hl. by destruct (_ || _).
  - intros f w0 m Hin%py_in_true. subst m. unfold after. rewrite load_interface_run; simpl.
    unfold add_interface, name_free, diagnostic. by rewrite Hin.
  - intros f w0 m Hin%py_in_true. subst m. unfold after. rewrite load_provider_run; simpl.
    unfold add_provider, name_free, diagnostic. rewrite Hin, orb_true_r.
    by destruct (py_in _ (_interfaces (self w0))).
  - intros f w0 m Hin%py_in_true. subst m. unfold after.
    rewrite load_semantic_interface_run; simpl.
    unfold add_semantic_interface, name_free, diagnostic.
    rewrite Hin, !orb_true_r.
    destruct (py_in _ (_interfaces (self w0))); [done|].
    by destruct (py_in _ (_providers (self w0))).
  - intros t w0. by rewrite _check_name_run.
  - exists (load_output path). unfold after.
    rewrite load_from_ros_package_path_exact; simpl. fold path.
    split; [done|]. unfold load_output.
    set (s0 := {| _ros_package_path := path; _interfaces := ∅; _providers := ∅;
                  _semantic_interfaces := ∅ |}).
    split_and!.
    + intros l1 i l2 i' Heq Hin Hname. rewrite Heq.
      destruct (later_record_reported add_interface interface_name "interface"
                  s0 l1 l2 i i' name_free_add_interface Hin Hname)
        as [Hheld Hline].
      apply elem_of_app. left. apply Hline.
      rewrite (diagnostic_rejected _ _ _ Hheld).
      destruct (foldl_add_interface_fields l1 s0) as (_ & _ & HP & HS).
      unfold name_free in Hheld. rewrite HP, HS in Hheld. simpl in Hheld.
      unfold py_in at 2 3 in Hheld. rewrite !lookup_empty in Hheld.
      rewrite !orb_false_r in Hheld. apply negb_false_iff in Hheld.
      by rewrite Hheld.
    + intros l1 p l2 p' Heq Hin Hname. rewrite Heq.
      set (s1 := foldl add_interface s0 (discovered_interfaces path)).
      destruct (later_record_reported add_provider provider_name "provider"
                  s1 l1 l2 p p' name_free_add_provider Hin Hname)
        as [Hheld Hline].
      pose proof (diagnostic_rejected _ "provider" _ Hheld) as Hdiag.
      destruct (foldl_add_provider_fields l1 s1) as (_ & _ & _ & HS).
      destruct (foldl_add_interface_fields (discovered_interfaces path) s0)
        as (_ & _ & _ & HS0).
      fold s1 in HS0. rewrite HS0 in HS. simpl in HS.
      unfold name_free in Hheld. rewrite HS in Hheld.
      unfold py_in at 3 in Hheld. rewrite lookup_empty, orb_false_r in Hheld.
      apply negb_false_iff in Hheld.
      destruct (py_in (provider_name p) (_interfaces (foldl add_provider s1 l1)))
        eqn:HI.
      * left. apply elem_of_app. right. apply elem_of_app. left. by apply Hline.
      * simpl in Hheld. rewrite Hheld in Hdiag.
        right. apply elem_of_app. right. apply elem_of_app. left. by apply Hline.
    + intros l1 q l2 q' Heq Hin Hname. rewrite Heq.
      set (s2 := foldl add_provider
                   (foldl add_interface s0 (discovered_interfaces path))
                   (discovered_providers path)).
      destruct (later_record_reported add_semantic_interface
                  semantic_interface_name "semantic_interface"
                  s2 l1 l2 q q' name_free_add_semantic_interface Hin Hname)
        as [Hheld Hline].
      pose proof (diagnostic_rejected _ "semantic_interface" _ Hheld) as Hdiag.
      destruct (py_in (semantic_interface_name q)
                  (_interfaces (foldl add_semantic_interface s2 l1))).
      * left. do 2 (apply elem_of_app; right). by apply Hline.
      * destruct (py_in (semantic_interface_name q)
                    (_providers (foldl add_semantic_interface s2 l1))).
        -- right; left. do 2 (apply elem_of_app; right). by apply Hline.
        -- right; right. do 2 (apply elem_of_app; right). by apply Hline.
Qed.

(** C4. When discovery yields both an interface and a provider called [X],
    the reload completes with an interface called [X] stored under [X] and
    with no provider (and no semantic interface) called [X]. *)
Theorem interface_wins_over_provider (arg : option (list string)) (w : World)
    (X : string) :
  (∃ i, i ∈ discovered_interfaces (effective_path arg (self w))
        ∧ interface_name i = X) →
  (∃ p, p ∈ discovered_providers (effective_path arg (self w))
        ∧ provider_name p = X) →
  ∃ w', load_from_ros_package_path arg w = (Ok tt, w') ∧
    (∃ i, _interfaces (self w') !! X = Some i ∧ interface_name i = X
          ∧ i ∈ discovered_interfaces (effective_path arg (self w))) ∧
    _providers (self w') !! X = None ∧
    (∀ k p, _providers (self w') !! k = Some p → provider_name p ≠ X) ∧
    _semantic_interfaces (self w') !! X = None.
Proof.
  intros (i & Hi & Hname) _.
  destruct (load_from_ros_package_path_run arg w) as [out ->].
  eexists; split; [done|]; simpl.
  set (path := effective_path arg (self w)) in *.
  destruct (loaded_lookup path X) as (_ & HI & HP & HS).
  destruct (first_named_is_Some interface_name X _ i Hi Hname) as [i' Hi'].
  assert (py_in X (_interfaces (loaded path)) = true) as Hin.
  { apply py_in_true. rewrite HI, Hi'. by eexists. }
  rewrite Hin in HP, HS. simpl in HS.
  split_and!; [|done| |done].
  - exists i'. rewrite HI. split; [done|]. by apply first_named_Some in Hi'.
  - intros k p Hk Hp.
    destruct (loaded_keyed_by_name path) as (_ & Hkey & _).
    apply Hkey in Hk as Hk'. rewrite Hp in Hk'. subst k. by rewrite HP in Hk.
Qed.

(** Providers come before semantic interfaces in the same way. *)
Lemma provider_wins_over_semantic_interface (path : option (list string))
    (X : string) (p : Provider) :
  p ∈ discovered_providers path → provider_name p = X →
  (∀ i, i ∈ discovered_interfaces path → interface_name i ≠ X) →
  is_Some (_providers (loaded path) !! X) ∧
  _semantic_interfaces (loaded path) !! X = None.
Proof.
  intros Hp Hname Hno.
  destruct (loaded_lookup path X) as (_ & HI & HP & HS).
  assert (_interfaces (loaded path) !! X = None) as Hnone.
  { rewrite HI. destruct (first_named _ _ _) as [i|] eqn:Hf; [|done].
    apply first_named_Some in Hf as [Hn Hin]. by destruct (Hno i Hin). }
  apply py_in_false in Hnone as Hfalse. rewrite Hfalse in HP, HS.
  assert (is_Some (_providers (loaded path) !! X)) as Hsome.
  { rewrite HP. by eapply first_named_is_Some. }
  split; [done|]. apply py_in_true in Hsome. by rewrite Hsome in HS.
Qed.

Lemma every_discovered_name_is_held (arg : option (list string)) (w : World) :
  let path := effective_path arg (self w) in
  let s' := self (after (load_from_ros_package_path arg) w) in
  (∀ i, i ∈ discovered_interfaces path → name_held (interface_name i) s') ∧
  (∀ p, p ∈ discovered_providers path → name_held (provider_name p) s') ∧
  (∀ q, q ∈ discovered_semantic_interfaces path →
        name_held (semantic_interface_name q) s').
Proof.
  intros path s'. subst s'. rewrite self_after_load. fold path.
  unfold name_held. split_and!.
  - intros i Hin.
    destruct (loaded_lookup path (interface_name i)) as (_ & HI & _).
    left. rewrite HI. by eapply first_named_is_Some.
  - intros p Hin.
    destruct (loaded_lookup path (provider_name p)) as (_ & _ & HP & _).
    destruct (py_in _ (_interfaces (loaded path))) eqn:Hi.
    + left. by apply py_in_true.
    + right; left. rewrite HP. by eapply first_named_is_Some.
  - intros q Hin.
    destruct (loaded_lookup path (semantic_interface_name q))
      as (_ & _ & _ & HS).
    destruct (py_in _ (_interfaces (loaded path))) eqn:Hi.
    { left. by apply py_in_true. }
    destruct (py_in _ (_providers (loaded path))) eqn:Hp.
    { right; left. by apply py_in_true. }
    right; right. rewrite HS; simpl. by eapply first_named_is_Some.
Qed.

(** C6. In each of the three loops a record whose name fails the uniqueness
    check is skipped: the body completes, the object is unchanged, the loop
    goes on with the remaining records and completes.  A reload never
    raises, and it gets through every discovered record: after it, the name
    of each of them is held by one of the mappings. *)
Theorem collisions_are_skipped :
  skips_rejected
    (λ f, _check_name (interface_name (capability_interface_from_file_path f))
                      "interface")
    load_interface ∧
  skips_rejected
    (λ f, _check_name (provider_name (capability_provider_from_file_path f))
                      "provider")
    load_provider ∧
  skips_rejected
    (λ f, _check_name
            (semantic_interface_name
               (semantic_capability_interface_from_file_path f))
            "semantic_interface")
    load_semantic_interface ∧
  (∀ arg w, fst (load_from_ros_package_path arg w) = Ok tt) ∧
  (∀ arg w,
     let path := effective_path arg (self w) in
     let s' := self (after (load_from_ros_package_path arg) w) in
     (∀ i, i ∈ discovered_interfaces path → name_held (interface_name i) s') ∧
     (∀ p, p ∈ discovered_providers path → name_held (provider_name p) s') ∧
     (∀ q, q ∈ discovered_semantic_interfaces path →
           name_held (semantic_interface_name q) s')).
Proof.
  split_and!; [| | | |apply every_discovered_name_is_held].
  - intros f rest w. rewrite _check_name_run; simpl. intros [= Hfree].
    assert (fst (for_each (f :: rest) load_interface w) = Ok tt) as Hall.
    { apply (for_each_completes capability_interface_from_file_path _
               add_interface).
      intros x w0. eexists. apply load_interface_run. }
    split_and!; [| | |done].
    + by rewrite load_interface_run.
    + unfold after. rewrite load_interface_run; simpl.
      unfold add_interface. by rewrite Hfree.
    + simpl. unfold bind, after. by rewrite load_interface_run.
  - intros f rest w. rewrite _check_name_run; simpl. intros [= Hfree].
    assert (fst (for_each (f :: rest) load_provider w) = Ok tt) as Hall.
    { apply (for_each_completes capability_provider_from_file_path _
               add_provider).
      intros x w0. eexists. apply load_provider_run. }
    split_and!; [| | |done].
    + by rewrite load_provider_run.
    + unfold after. rewrite load_provider_run; simpl.
      unfold add_provider. by rewrite Hfree.
    + simpl. unfold bind, after. by rewrite load_provider_run.
  - intros f rest w. rewrite _check_name_run; simpl. intros [= Hfree].
    assert (fst (for_each (f :: rest) load_semantic_interface w) = Ok tt) as Hall.
    { apply (for_each_completes semantic_capability_interface_from_file_path _
               add_semantic_interface).
      intros x w0. eexists. apply load_semantic_interface_run. }
    split_and!; [| | |done].
    + by rewrite load_semantic_interface_run.
    + unfold after. rewrite load_semantic_interface_run; simpl.
      unfold add_semantic_interface. by rewrite Hfree.
    + simpl. unfold bind, after. by rewrite load_semantic_interface_run.
  - intros arg w. by destruct (load_from_ros_package_path_run arg w) as [o ->].
Qed.
End Collisions.

(** ** Stubs and queries *)

Section Queries.
Context `{Specs, Discovery}.

(** C7, on the code. Each stub executes [raise NotImplemented]; the builtin
    constant [NotImplemented] is not an exception, so what the caller
    receives is [TypeError], not [NotImplementedError]. *)
Theorem stubs_raise_TypeError (w : World) (with_errors : bool) :
  verify_tree w = (Raised TypeError, w) ∧
  view_capabilities_as_dot with_errors w = (Raised TypeError, w) ∧
  advertize_services w = (Raised TypeError, w) ∧
  fst (verify_tree w) ≠ Raised NotImplementedError ∧
  fst (view_capabilities_as_dot with_errors w) ≠ Raised NotImplementedError ∧
  fst (advertize_services w) ≠ Raised NotImplementedError.
Proof. by split_and!. Qed.

Lemma elem_of_values {V} (m : gmap string V) (v : V) :
  v ∈ values m ↔ ∃ k, m !! k = Some v.
Proof.
  unfold values. rewrite list_elem_of_fmap. split.
  - intros ([k v'] & -> & Hkv). exists k. by apply elem_of_map_to_list.
  - intros [k Hk]. exists (k, v). split; [done|]. by apply elem_of_map_to_list.
Qed.

Lemma NoDup_values {V} (key : V → string) (m : gmap string V) :
  (∀ k v, m !! k = Some v → key v = k) → NoDup (values m).
Proof.
  intros Hkey. unfold values. apply NoDup_fmap_2_strong.
  - intros [k1 v1] [k2 v2] H1%elem_of_map_to_list H2%elem_of_map_to_list.
    simpl. intros <-. apply Hkey in H1, H2. by subst.
  - apply NoDup_map_to_list.
Qed.

(** C8. On every index and for every string, [get_providers] returns,
    without raising and without changing anything, exactly the stored
    providers whose [implements] is that string; the result is empty exactly
    when no stored provider matches, and on a loaded index it has no
    repetition. *)
Theorem get_providers_exact (n : string) (w : World) :
  ∃ ps, get_providers n w = (Ok ps, w) ∧
    (∀ p, p ∈ ps ↔
          (∃ k, _providers (self w) !! k = Some p)
          ∧ provider_implements p = n) ∧
    (ps = [] ↔
     ∀ k p, _providers (self w) !! k = Some p
            → provider_implements p ≠ n) ∧
    (∀ arg w0, w = after (load_from_ros_package_path arg) w0 → NoDup ps).
Proof.
  unfold get_providers, bind, get_self, ret.
  eexists; split; [done|].
  assert (∀ p, p ∈ filter (λ p, provider_implements p = n)
                       (values (_providers (self w)))
               ↔ (∃ k, _providers (self w) !! k = Some p)
                 ∧ provider_implements p = n) as Hmem.
  { intros p. rewrite list_elem_of_filter, elem_of_values. tauto. }
  split_and!; [done| |].
  - split.
    + intros Hnil k p Hk Himpl.
      assert (p ∈ filter (λ p, provider_implements p = n)
                    (values (_providers (self w)))) as Hin
        by (apply Hmem; eauto).
      rewrite Hnil in Hin. by apply elem_of_nil in Hin.
    + intros Hnone.
      destruct (filter _ _) as [|p l] eqn:Hf; [done|].
      assert (p ∈ p :: l) as Hin by apply list_elem_of_here.
      apply Hmem in Hin as [[k Hk] Himpl]. by destruct (Hnone k p Hk).
  - intros arg w0 ->. apply NoDup_filter.
    rewrite self_after_load.
    apply (NoDup_values provider_name).
    apply loaded_keyed_by_name.
Qed.
End Queries.

(** ** The index on the example tree *)

(** C2, as stated, fails: [/pkgs/c] declares the provider [Nav] twice; after
    the load the entry is the first declaration, not the second, and the
    second has been reported. *)
Lemma later_provider_does_not_overwrite :
  let w := Example.start (Some ["/pkgs/c"]) in
  discovered_providers (Some ["/pkgs/c"])
  = [ {| Example.pname := "Nav"; Example.pimplements := "Minimal";
         Example.pfile := "/pkgs/c/nav_first.yaml" |};
      {| Example.pname := "Nav"; Example.pimplements := "Other";
         Example.pfile := "/pkgs/c/nav_second.yaml" |} ] ∧
  _providers (self w) !! "Nav"
  = Some {| Example.pname := "Nav"; Example.pimplements := "Minimal";
            Example.pfile := "/pkgs/c/nav_first.yaml" |} ∧
  _providers (self w) !! "Nav"
  ≠ Some {| Example.pname := "Nav"; Example.pimplements := "Other";
            Example.pfile := "/pkgs/c/nav_second.yaml" |} ∧
  stdout w = [ "provider Nav collides with a provider name";
               "semantic_interface Nav collides with a provider name" ].
Proof.
  split_and!.
  - by vm_compute.
  - by vm_compute.
  - vm_compute. discriminate.
  - by vm_compute.
Qed.

Lemma first_of_a_name_is_kept_witness :
  let nav := {| Example.pname := "Nav"; Example.pimplements := "Minimal";
                Example.pfile := "/pkgs/c/nav_first.yaml" |} in
  _providers
    (self (after (load_from_ros_package_path (Some ["/pkgs/c"]))
             {| self := blank; stdout := [] |})) !! "Nav" = Some nav ∧
  first_named provider_name "Nav" (discovered_providers (Some ["/pkgs/c"]))
  = Some nav ∧
  ∃ out,
    stdout (after (load_from_ros_package_path (Some ["/pkgs/c"]))
              {| self := blank; stdout := [] |}) = [] ++ out ∧
    ("provider Nav already declared" ∈ out
     ∨ "provider Nav collides with a provider name" ∈ out).
Proof.
  intros nav.
  assert (_providers
            (self (after (load_from_ros_package_path (Some ["/pkgs/c"]))
                     {| self := blank; stdout := [] |})) !! "Nav" = Some nav)
    as Hnav by (by vm_compute).
  split; [exact Hnav|].
  destruct (first_of_a_name_is_kept (Some ["/pkgs/c"])
              {| self := blank; stdout := [] |} "Nav")
    as (_ & Hp & _ & _ & _ & _ & _ & out & Hout & _ & Hprov & _).
  split; [exact (Hp nav Hnav)|].
  exists out. split; [exact Hout|].
  apply (Hprov [nav]
           {| Example.pname := "Nav"; Example.pimplements := "Other";
              Example.pfile := "/pkgs/c/nav_second.yaml" |} [] nav).
  - by vm_compute.
  - apply list_elem_of_here.
  - reflexivity.
Defined.

Lemma interface_wins_over_provider_witness :
  ∃ w', load_from_ros_package_path (Some ["/pkgs/b"])
          {| self := blank; stdout := [] |} = (Ok tt, w') ∧
    (∃ i, _interfaces (self w') !! "Minimal" = Some i
          ∧ interface_name i = "Minimal"
          ∧ i ∈ discovered_interfaces
                  (effective_path (Some ["/pkgs/b"]) blank)) ∧
    _providers (self w') !! "Minimal" = None ∧
    (∀ k p, _providers (self w') !! k = Some p → provider_name p ≠ "Minimal") ∧
    _semantic_interfaces (self w') !! "Minimal" = None.
Proof.
  apply (interface_wins_over_provider (Some ["/pkgs/b"])
           {| self := blank; stdout := [] |} "Minimal").
  - exists {| Example.iname := "Minimal"; Example.ifile := "/pkgs/b/Minimal.yaml" |}.
    split; [|reflexivity]. vm_compute. apply list_elem_of_here.
  - exists {| Example.pname := "Minimal"; Example.pimplements := "Minimal";
              Example.pfile := "/pkgs/b/Minimal_provider.yaml" |}.
    split; [|reflexivity]. vm_compute. apply list_elem_of_here.
Defined.

Lemma get_providers_exact_witness :
  let w := after (load_from_ros_package_path (Some ["/pkgs/a"]))
             {| self := blank; stdout := [] |} in
  fst (get_providers "NoSuchInterface" w) = Ok [] ∧
  (∀ k p, _providers (self w) !! k = Some p
          → provider_implements p ≠ "NoSuchInterface") ∧
  ∃ ps, fst (get_providers "Minimal" w) = Ok ps ∧ NoDup ps.
Proof.
  intros w.
  assert (fst (get_providers "NoSuchInterface" w) = Ok []) as Hnone
    by (by vm_compute).
  split_and!; [done| |].
  - destruct (get_providers_exact "NoSuchInterface" w)
      as (ps & Hrun & _ & Hnil & _).
    apply Hnil. rewrite Hrun in Hnone. by injection Hnone.
  - destruct (get_providers_exact "Minimal" w) as (ps & Hrun & _ & _ & Hnd).
    exists ps. split; [by rewrite Hrun|].
    by apply (Hnd (Some ["/pkgs/a"]) {| self := blank; stdout := [] |}).
Defined.

Lemma collisions_are_skipped_witness :
  let w := after (load_interface "/pkgs/b/Minimal.yaml")
             {| self := blank; stdout := [] |} in
  fst (load_provider "/pkgs/b/Minimal_provider.yaml" w) = Ok tt ∧
  self (after (load_provider "/pkgs/b/Minimal_provider.yaml") w) = self w ∧
  for_each ["/pkgs/b/Minimal_provider.yaml"; "/pkgs/a/P1.yaml"] load_provider w
  = for_each ["/pkgs/a/P1.yaml"] load_provider
      (after (load_provider "/pkgs/b/Minimal_provider.yaml") w) ∧
  fst (for_each ["/pkgs/b/Minimal_provider.yaml"; "/pkgs/a/P1.yaml"]
         load_provider w) = Ok tt.
Proof.
  intros w.
  apply (proj1 (proj2 collisions_are_skipped)
           "/pkgs/b/Minimal_provider.yaml" ["/pkgs/a/P1.yaml"] w).
  by vm_compute.
Defined.


(** The scenarios of the specification, run on the example tree. *)
Example scenario_minimal :
  let w := Example.start (Some ["/pkgs/a"]) in
  fst (get_interfaces w)
  = Ok [ {| Example.iname := "Minimal"; Example.ifile := "/pkgs/a/Minimal.yaml" |} ] ∧
  fst (get_providers "Minimal" w)
  = Ok [ {| Example.pname := "P1"; Example.pimplements := "Minimal";
            Example.pfile := "/pkgs/a/P1.yaml" |};
         {| Example.pname := "P2"; Example.pimplements := "Minimal";
            Example.pfile := "/pkgs/a/P2.yaml" |} ] ∧
  fst (get_providers "NoSuchInterface" w) = Ok [] ∧
  fst (get_semantic_interfaces "Minimal" w) = Ok [].
Proof. by vm_compute. Qed.

Example scenario_collision :
  let w := Example.start (Some ["/pkgs/b"]) in
  fst (get_interfaces w)
  = Ok [ {| Example.iname := "Minimal"; Example.ifile := "/pkgs/b/Minimal.yaml" |} ] ∧
  _providers (self w) !! "Minimal" = None ∧
  stdout w = ["provider Minimal already declared"].
Proof. by vm_compute. Qed.

Example scenario_stub :
  fst (verify_tree (Example.start (Some ["/pkgs/a"]))) = Raised TypeError.
Proof. reflexivity. Qed.

(** A reload works on the live mappings: it empties them in place and then
    refills them.  On the example, reloading [/pkgs/b] over an index of
    [/pkgs/a] goes through an object that holds neither the old nor the
    new interface [Minimal]. *)
Example reload_clears_in_place :
  let w := Example.start (Some ["/pkgs/a"]) in
  let cleared := after _initialize_capabilities w in
  _interfaces (self w) !! "Minimal"
  = Some {| Example.iname := "Minimal"; Example.ifile := "/pkgs/a/Minimal.yaml" |} ∧
  _interfaces (self cleared) !! "Minimal" = None ∧
  _interfaces (self (after (load_from_ros_package_path (Some ["/pkgs/b"])) w))
    !! "Minimal"
  = Some {| Example.iname := "Minimal"; Example.ifile := "/pkgs/b/Minimal.yaml" |}.
Proof. split_and!; by vm_compute. Qed.

(** ** Accounting for the discovered records *)

Section Accounting.
Context `{Specs, Discovery}.

Lemma diagnostic_length (n t : string) (s : CapabilityIndex) :
  length (diagnostic n t s) = if name_free n s then 0 else 1.
Proof.
  unfold diagnostic, name_free.
  by destruct (py_in n (_interfaces s)), (py_in n (_providers s)),
    (py_in n (_semantic_interfaces s)).
Qed.

Lemma add_interface_counted (n t : string) (s : CapabilityIndex) (i : Interface) :
  n = interface_name i →
  length (diagnostic n t s) + entries (add_interface s i) = entries s + 1.
Proof.
  intros ->. rewrite diagnostic_length. unfold add_interface.
  destruct (name_free _ s) eqn:Hfree; [|lia].
  apply name_free_true in Hfree as (Hi & _ & _).
  unfold entries; simpl. rewrite map_size_insert_None by done. lia.
Qed.

Lemma add_provider_counted (n t : string) (s : CapabilityIndex) (p : Provider) :
  n = provider_name p →
  length (diagnostic n t s) + entries (add_provider s p) = entries s + 1.
Proof.
  intros ->. rewrite diagnostic_length. unfold add_provider.
  destruct (name_free _ s) eqn:Hfree; [|lia].
  apply name_free_true in Hfree as (_ & Hp & _).
  unfold entries; simpl. rewrite map_size_insert_None by done. lia.
Qed.

Lemma add_semantic_interface_counted (n t : string) (s : CapabilityIndex)
    (q : SemanticInterface) :
  n = semantic_interface_name q →
  length (diagnostic n t s) + entries (add_semantic_interface s q)
  = entries s + 1.
Proof.
  intros ->. rewrite diagnostic_length. unfold add_semantic_interface.
  destruct (name_free _ s) eqn:Hfree; [|lia].
  apply name_free_true in Hfree as (_ & _ & Hq).
  unfold entries; simpl. rewrite map_size_insert_None by done. lia.
Qed.

(** A loop in which every round either stores one entry or prints one line
    stores and prints, in total, as many as it has rounds. *)
Lemma for_each_run_counted {A V} (parse : A → V) (body : A → M unit)
    (add : CapabilityIndex → V → CapabilityIndex)
    (l : list A) (w : World) :
  (∀ x w0, ∃ out,
     body x w0
     = (Ok tt, {| self := add (self w0) (parse x); stdout := stdout w0 ++ out |})
     ∧ length out + entries (add (self w0) (parse x)) = entries (self w0) + 1) →
  ∃ out,
    for_each l body w
    = (Ok tt, {| self := foldl add (self w) (parse <$> l);
                 stdout := stdout w ++ out |})
    ∧ length out + entries (foldl add (self w) (parse <$> l))
      = entries (self w) + length l.
Proof.
  intros Hbody. revert w. induction l as [|x l IH]; intros w; csimpl.
  - exists []. unfold ret. rewrite app_nil_r, world_eta. split; [done|].
    simpl. lia.
  - unfold bind. destruct (Hbody x w) as (out1 & -> & Hone).
    destruct (IH {| self := add (self w) (parse x); stdout := stdout w ++ out1 |})
      as (out2 & -> & Hrest); csimpl in *.
    exists (out1 ++ out2). rewrite app_assoc. split; [done|].
    rewrite length_app. lia.
Qed.

Ltac run_loop_counted parse add body_run counted out Hout :=
  match goal with
  | |- context [for_each ?l ?body ?w] =>
      let E := fresh "E" in
      destruct (for_each_run_counted parse body add l w) as (out & E & Hout);
      [ intros ? ?; eexists; split; [apply body_run|by apply counted]
      | rewrite E; clear E; simpl in * ]
  end.

Lemma load_from_ros_package_path_counted (arg : option (list string)) (w : World) :
  ∃ out,
    load_from_ros_package_path arg w
    = (Ok tt, {| self := loaded (effective_path arg (self w));
                 stdout := stdout w ++ out |})
    ∧ length out + entries (loaded (effective_path arg (self w)))
      = length (discovered_interfaces (effective_path arg (self w)))
        + length (discovered_providers (effective_path arg (self w)))
        + length (discovered_semantic_interfaces (effective_path arg (self w))).
Proof.
  unfold load_from_ros_package_path, effective_path, loaded,
    discovered_interfaces, discovered_providers, discovered_semantic_interfaces.
  set (w0 := {| self := {| _ros_package_path :=
                             if truthy arg then arg else _ros_package_path (self w);
                           _interfaces := ∅; _providers := ∅;
                           _semantic_interfaces := ∅ |};
                stdout := stdout w |}).
  set (path := if truthy arg then arg else _ros_package_path (self w)).
  assert (∀ k : option (list string) → M unit,
            bind (if negb (truthy arg)
                  then bind get_self (λ s, ret (_ros_package_path s))
                  else bind (set_ros_package_path arg) (λ _, ret arg))
                 (λ p, bind _initialize_capabilities (λ _, k p)) w
            = k path w0) as ->.
  { intros k. subst path w0. destruct w as [s out].
    by destruct (truthy arg). }
  unfold bind.
  run_loop_counted capability_interface_from_file_path add_interface
    load_interface_run add_interface_counted out1 H1.
  run_loop_counted capability_provider_from_file_path add_provider
    load_provider_run add_provider_counted out2 H2.
  run_loop_counted semantic_capability_interface_from_file_path
    add_semantic_interface load_semantic_interface_run
    add_semantic_interface_counted out3 H3.
  exists (out1 ++ out2 ++ out3). rewrite !app_assoc. split; [done|].
  rewrite !length_app, !length_fmap.
  unfold entries in H1 at 2. simpl in H1. rewrite !map_size_empty in H1.
  unfold path in *. lia.
Qed.

(** X1. A reload only appends to the output, and it accounts for every
    discovered record: the number of lines it prints plus the number of
    entries it leaves in the three mappings is the number of records
    discovered. *)
Theorem every_record_stored_or_reported (arg : option (list string)) (w : World) :
  ∃ out,
    stdout (after (load_from_ros_package_path arg) w) = stdout w ++ out ∧
    length out + entries (self (after (load_from_ros_package_path arg) w))
    = length (discovered_interfaces (effective_path arg (self w)))
      + length (discovered_providers (effective_path arg (self w)))
      + length (discovered_semantic_interfaces (effective_path arg (self w))).
Proof.
  destruct (load_from_ros_package_path_counted arg w) as (out & Hrun & Hcount).
  exists out. unfold after. by rewrite Hrun.
Qed.
End Accounting.

(** ** The index in terms of what discovery returned *)

Section Contents.
Context `{Specs, Discovery}.

Lemma first_named_None {V} (key : V → string) (n : string) (l : list V) :
  first_named key n l = None ↔ ∀ v, v ∈ l → key v ≠ n.
Proof.
  split.
  - intros Hnone v Hin Hkey.
    destruct (first_named_is_Some key n l v Hin Hkey) as [x Hx]. congruence.
  - intros Hall. destruct (first_named key n l) as [v|] eqn:Hf; [|done].
    apply first_named_Some in Hf as [Hkey Hin]. by destruct (Hall v Hin).
Qed.

Lemma first_named_NoDup {V} (key : V → string) (l : list V) (v : V) :
  NoDup (key <$> l) → v ∈ l → first_named key (key v) l = Some v.
Proof.
  induction l as [|x l IH]; intros Hnd Hin.
  - by apply elem_of_nil in Hin.
  - rewrite fmap_cons in Hnd. apply NoDup_cons in Hnd as [Hx Hnd].
    rewrite first_named_cons. apply elem_of_cons in Hin as [->|Hin].
    + by rewrite decide_True.
    + rewrite decide_False; [by apply IH|].
      intros Heq. apply Hx. rewrite Heq. by apply list_elem_of_fmap_2.
Qed.

Lemma loaded_contents (path : option (list string)) (n : string) :
  (∀ i, _interfaces (loaded path) !! n = Some i ↔
        first_named interface_name n (discovered_interfaces path) = Some i) ∧
  (∀ p, _providers (loaded path) !! n = Some p ↔
        first_named provider_name n (discovered_providers path) = Some p
        ∧ ∀ i, i ∈ discovered_interfaces path → interface_name i ≠ n) ∧
  (∀ q, _semantic_interfaces (loaded path) !! n = Some q ↔
        first_named semantic_interface_name n
          (discovered_semantic_interfaces path) = Some q
        ∧ (∀ i, i ∈ discovered_interfaces path → interface_name i ≠ n)
        ∧ (∀ p, p ∈ discovered_providers path → provider_name p ≠ n)).
Proof.
  destruct (loaded_lookup path n) as (_ & HI & HP & HS).
  assert (py_in n (_interfaces (loaded path)) = false
          ↔ ∀ i, i ∈ discovered_interfaces path → interface_name i ≠ n) as HnoI.
  { by rewrite py_in_false, HI, first_named_None. }
  split_and!.
  - intros i. by rewrite HI.
  - intros p. rewrite HP. destruct (py_in n (_interfaces (loaded path))).
    + split; [done|]. intros [_ Hno]. by apply HnoI in Hno.
    + split; [|by intros [? _]]. intros Hp. split; [done|]. by apply HnoI.
  - intros q. rewrite HS.
    destruct (py_in n (_interfaces (loaded path))); simpl.
    { split; [done|]. intros (_ & Hno & _). by apply HnoI in Hno. }
    assert (py_in n (_providers (loaded path)) = false
            ↔ ∀ p, p ∈ discovered_providers path → provider_name p ≠ n) as HnoP.
    { by rewrite py_in_false, HP, first_named_None. }
    destruct (py_in n (_providers (loaded path))).
    + split; [done|]. intros (_ & _ & Hno). by apply HnoP in Hno.
    + split; [|by intros (? & _)]. intros Hq.
      split_and!; [done|by apply HnoI|by apply HnoP].
Qed.

(** X2. After a reload the three mappings are determined by the discovered
    records alone: under a name, the interfaces hold the first discovered
    interface of that name; the providers hold the first discovered provider
    of that name unless an interface of that name was discovered; the
    semantic interfaces hold the first discovered one of that name unless an
    interface or a provider of that name was discovered.  Nothing else is
    stored. *)
Theorem contents_after_load (arg : option (list string)) (w : World) (n : string) :
  let path := effective_path arg (self w) in
  let s' := self (after (load_from_ros_package_path arg) w) in
  (∀ i, _interfaces s' !! n = Some i ↔
        first_named interface_name n (discovered_interfaces path) = Some i) ∧
  (∀ p, _providers s' !! n = Some p ↔
        first_named provider_name n (discovered_providers path) = Some p
        ∧ ∀ i, i ∈ discovered_interfaces path → interface_name i ≠ n) ∧
  (∀ q, _semantic_interfaces s' !! n = Some q ↔
        first_named semantic_interface_name n
          (discovered_semantic_interfaces path) = Some q
        ∧ (∀ i, i ∈ discovered_interfaces path → interface_name i ≠ n)
        ∧ (∀ p, p ∈ discovered_providers path → provider_name p ≠ n)).
Proof.
  intros path s'. subst s'. rewrite self_after_load. fold path.
  apply loaded_contents.
Qed.

Lemma size_foldl_add_entry {V} (taken : string → bool) (key : V → string)
    (l : list V) (m : gmap string V) :
  NoDup (key <$> l) →
  (∀ v, v ∈ l → taken (key v) = false ∧ m !! key v = None) →
  size (foldl (add_entry taken key) m l) = size m + length l.
Proof.
  revert m. induction l as [|v l IH]; intros m Hnd Hfree; simpl; [lia|].
  rewrite fmap_cons in Hnd. apply NoDup_cons in Hnd as [Hv Hnd].
  destruct (Hfree v) as [Ht Hm]; [apply list_elem_of_here|].
  unfold add_entry at 2. rewrite Ht. apply py_in_false in Hm as Hin.
  rewrite Hin; simpl. rewrite IH; [|done|].
  - rewrite map_size_insert_None by done. lia.
  - intros v' Hin'. destruct (Hfree v') as [Ht' Hm'];
      [by apply list_elem_of_further|].
    split; [done|]. rewrite lookup_insert_ne; [done|].
    intros Heq. apply Hv. rewrite Heq. by apply list_elem_of_fmap_2.
Qed.

Lemma loaded_entries_NoDup (path : option (list string)) :
  NoDup ((interface_name <$> discovered_interfaces path)
         ++ (provider_name <$> discovered_providers path)
         ++ (semantic_interface_name <$> discovered_semantic_interfaces path)) →
  entries (loaded path)
  = length (discovered_interfaces path) + length (discovered_providers path)
    + length (discovered_semantic_interfaces path).
Proof.
  intros Hnd.
  apply NoDup_app in Hnd as (HndI & HIPS & Hnd).
  apply NoDup_app in Hnd as (HndP & HPS & HndS).
  assert (∀ n, n ∈ provider_name <$> discovered_providers path
               ∨ n ∈ semantic_interface_name
                       <$> discovered_semantic_interfaces path →
               _interfaces (loaded path) !! n = None) as HnoI.
  { intros n Hn. destruct (loaded_lookup path n) as (_ & -> & _).
    apply first_named_None. intros i Hi <-.
    apply (HIPS (interface_name i)); [by apply list_elem_of_fmap_2|].
    apply elem_of_app. tauto. }
  assert (∀ n, n ∈ semantic_interface_name
                     <$> discovered_semantic_interfaces path →
               _providers (loaded path) !! n = None) as HnoP.
  { intros n Hn. destruct (loaded_lookup path n) as (_ & _ & -> & _).
    destruct (py_in n _); [done|].
    apply first_named_None. intros p Hp <-.
    apply (HPS (provider_name p)); [by apply list_elem_of_fmap_2|done]. }
  unfold entries, loaded in *.
  set (s0 := {| _ros_package_path := path; _interfaces := ∅; _providers := ∅;
                _semantic_interfaces := ∅ |}) in *.
  set (s1 := foldl add_interface s0 (discovered_interfaces path)) in *.
  set (s2 := foldl add_provider s1 (discovered_providers path)) in *.
  set (s3 := foldl add_semantic_interface s2
               (discovered_semantic_interfaces path)) in *.
  destruct (foldl_add_semantic_interface_fields
              (discovered_semantic_interfaces path) s2) as (_ & Hi3 & Hp3 & Hs3).
  destruct (foldl_add_provider_fields (discovered_providers path) s1)
    as (_ & Hi2 & Hp2 & Hs2).
  destruct (foldl_add_interface_fields (discovered_interfaces path) s0)
    as (_ & Hi1 & Hp1 & Hs1).
  fold s1 in Hi1, Hp1, Hs1. fold s2 in Hi2, Hp2, Hs2. fold s3 in Hi3, Hp3, Hs3.
  assert (_interfaces s0 = ∅ ∧ _providers s0 = ∅ ∧ _semantic_interfaces s0 = ∅)
    as (E1 & E2 & E3) by done.
  rewrite E1 in Hi1. rewrite E2 in Hp1. rewrite E3 in Hs1.
  rewrite Hp1 in Hp2. rewrite Hs1 in Hs2. rewrite Hs2 in Hs3.
  assert (size (_interfaces s3) = length (discovered_interfaces path)) as ->.
  { rewrite Hi3, Hi2, Hi1, size_foldl_add_entry, map_size_empty; [done|done|].
    intros i _. rewrite E2, E3, lookup_empty. by unfold py_in; rewrite lookup_empty. }
  assert (size (_providers s3) = length (discovered_providers path)) as ->.
  { rewrite Hp3, Hp2, size_foldl_add_entry, map_size_empty; [done|done|].
    intros p Hp. rewrite Hs1, lookup_empty. split; [|done].
    apply orb_false_iff. split; [|by unfold py_in; rewrite lookup_empty].
    apply py_in_false. rewrite <- Hi2, <- Hi3. apply HnoI. left.
    by apply list_elem_of_fmap_2. }
  assert (size (_semantic_interfaces s3)
          = length (discovered_semantic_interfaces path)) as ->.
  { rewrite Hs3, size_foldl_add_entry, map_size_empty; [done|done|].
    intros q Hq. rewrite lookup_empty. split; [|done].
    apply orb_false_iff. split; apply py_in_false.
    - rewrite <- Hi3. apply HnoI. right. by apply list_elem_of_fmap_2.
    - rewrite <- Hp3. apply HnoP. by apply list_elem_of_fmap_2. }
  done.
Qed.

(** X3. When the names of all discovered records, of the three kinds
    together, are pairwise distinct, a reload prints nothing and stores
    every record under its name. *)
Theorem no_collision_no_diagnostic (arg : option (list string)) (w : World) :
  let path := effective_path arg (self w) in
  NoDup ((interface_name <$> discovered_interfaces path)
         ++ (provider_name <$> discovered_providers path)
         ++ (semantic_interface_name <$> discovered_semantic_interfaces path)) →
  load_from_ros_package_path arg w
  = (Ok tt, {| self := loaded path; stdout := stdout w |}) ∧
  (∀ i, i ∈ discovered_interfaces path →
        _interfaces (loaded path) !! interface_name i = Some i) ∧
  (∀ p, p ∈ discovered_providers path →
        _providers (loaded path) !! provider_name p = Some p) ∧
  (∀ q, q ∈ discovered_semantic_interfaces path →
        _semantic_interfaces (loaded path) !! semantic_interface_name q = Some q).
Proof.
  intros path Hnd.
  destruct (load_from_ros_package_path_counted arg w) as (out & Hrun & Hcount).
  fold path in Hrun, Hcount.
  rewrite (loaded_entries_NoDup path Hnd) in Hcount.
  assert (out = []) as -> by (apply length_zero_iff_nil; lia).
  rewrite app_nil_r in Hrun. split; [done|].
  apply NoDup_app in Hnd as (HndI & HIPS & Hnd).
  apply NoDup_app in Hnd as (HndP & HPS & HndS).
  split_and!.
  - intros i Hi. destruct (loaded_lookup path (interface_name i)) as (_ & -> & _).
    by apply first_named_NoDup.
  - intros p Hp.
    destruct (loaded_lookup path (provider_name p)) as (_ & HI & -> & _).
    assert (py_in (provider_name p) (_interfaces (loaded path)) = false) as ->.
    { apply py_in_false. rewrite HI. apply first_named_None. intros i Hi Heq.
      apply (HIPS (interface_name i)); [by apply list_elem_of_fmap_2|].
      rewrite Heq. apply elem_of_app. left. by apply list_elem_of_fmap_2. }
    by apply first_named_NoDup.
  - intros q Hq.
    destruct (loaded_lookup path (semantic_interface_name q))
      as (_ & HI & HP & ->).
    assert (py_in (semantic_interface_name q) (_interfaces (loaded path)) = false)
      as Hi.
    { apply py_in_false. rewrite HI. apply first_named_None. intros i Hi Heq.
      apply (HIPS (interface_name i)); [by apply list_elem_of_fmap_2|].
      rewrite Heq. apply elem_of_app. right. by apply list_elem_of_fmap_2. }
    rewrite Hi in HP |- *.
    assert (py_in (semantic_interface_name q) (_providers (loaded path)) = false)
      as ->.
    { apply py_in_false. rewrite HP. apply first_named_None. intros p Hp Heq.
      apply (HPS (provider_name p)); [by apply list_elem_of_fmap_2|].
      rewrite Heq. by apply list_elem_of_fmap_2. }
    by apply first_named_NoDup.
Qed.
End Contents.

(** ** Construction, reload and the reload service *)

Section Lifecycle.
Context `{Specs, Discovery}.

Lemma new_CapabilityIndex_run (arg : option (list string)) (out : list string) :
  ∃ out', new_CapabilityIndex arg out
     = (Ok tt, {| self := loaded arg; stdout := out ++ out' |}).
Proof.
  unfold new_CapabilityIndex.
  destruct (__init___run arg {| self := blank; stdout := out |}) as [o ->].
  by exists o.
Qed.

(** X4. When discovery returns no record, a reload prints nothing, leaves
    the three mappings empty, and each of the three queries then returns
    the empty list. *)
Theorem empty_discovery (arg : option (list string)) (w : World) :
  let path := effective_path arg (self w) in
  let w' := {| self := {| _ros_package_path := path; _interfaces := ∅;
                          _providers := ∅; _semantic_interfaces := ∅ |};
               stdout := stdout w |} in
  discovered_interfaces path = [] →
  discovered_providers path = [] →
  discovered_semantic_interfaces path = [] →
  load_from_ros_package_path arg w = (Ok tt, w') ∧
  get_interfaces w' = (Ok [], w') ∧
  (∀ n, get_providers n w' = (Ok [], w')) ∧
  (∀ n, get_semantic_interfaces n w' = (Ok [], w')).
Proof.
  intros path w' Hi Hp Hs.
  destruct (load_from_ros_package_path_counted arg w) as (out & Hrun & Hcount).
  fold path in Hrun, Hcount. rewrite Hi, Hp, Hs in Hcount.
  assert (out = []) as -> by (apply length_zero_iff_nil; simpl in Hcount; lia).
  rewrite app_nil_r in Hrun. unfold loaded in Hrun.
  rewrite Hi, Hp, Hs in Hrun. simpl in Hrun.
  split_and!; [done| | |].
  - unfold get_interfaces, bind, get_self, ret, values; simpl.
    by rewrite map_to_list_empty.
  - intros n. unfold get_providers, bind, get_self, ret, values; simpl.
    by rewrite map_to_list_empty.
  - intros n. unfold get_semantic_interfaces, bind, get_self, ret, values; simpl.
    by rewrite map_to_list_empty.
Qed.

(** X5. The constructor completes and stores its argument as it is, the
    absent argument and the empty sequence included, and runs discovery on
    it; a later reload without argument finds the same index again. *)
Theorem constructor_stores_argument (arg : option (list string))
    (out : list string) :
  ∃ w', new_CapabilityIndex arg out = (Ok tt, w') ∧
    _ros_package_path (self w') = arg ∧
    (∀ n,
       _interfaces (self w') !! n
       = first_named interface_name n (discovered_interfaces arg)) ∧
    (∃ out', stdout w' = out ++ out') ∧
    self (after (load_from_ros_package_path None) w') = self w'.
Proof.
  destruct (new_CapabilityIndex_run arg out) as [out' ->].
  eexists; split; [done|]; simpl. split_and!.
  - apply loaded_path.
  - intros n. by destruct (loaded_lookup arg n) as (_ & -> & _).
  - by exists out'.
  - rewrite self_after_load; simpl. unfold effective_path; simpl.
    by rewrite loaded_path.
Qed.

(** X6. A reload leaves the index a fresh construction would build: on its
    argument when that is a non-empty sequence, on the stored path when it
    is absent or empty, whatever the index held before. *)
Theorem reload_is_fresh_construction (arg : option (list string)) (w : World)
    (out : list string) :
  self (after (load_from_ros_package_path arg) w)
  = self (snd (new_CapabilityIndex
                 match arg with
                 | Some (r :: rs) => Some (r :: rs)
                 | Some [] | None => _ros_package_path (self w)
                 end out)).
Proof.
  rewrite self_after_load, effective_path_stored.
  by destruct (new_CapabilityIndex_run
                 match arg with
                 | Some (r :: rs) => Some (r :: rs)
                 | _ => _ros_package_path (self w)
                 end out) as [out' ->].
Qed.

(** X7. The reload service never raises: it prints its announcement before
    anything the reload prints, answers the empty response, leaves the
    stored path as it was and the index as a reload without argument
    leaves it. *)
Theorem handle_reload_request_reloads (w : World) :
  ∃ out,
    handle_reload_request w
    = (Ok mkEmptyResponse,
       {| self := self (after (load_from_ros_package_path None) w);
          stdout := stdout w ++ "Reloading capabilities" :: out |}) ∧
    _ros_package_path (self (after (load_from_ros_package_path None) w))
    = _ros_package_path (self w).
Proof.
  unfold handle_reload_request, bind, print.
  destruct (load_from_ros_package_path_run None
    {| self := self w; stdout := stdout w ++ ["Reloading capabilities"] |})
    as [out ->]; simpl.
  exists out. rewrite self_after_load. unfold effective_path; simpl.
  rewrite <- app_assoc; simpl. split; [done|]. apply loaded_path.
Qed.
End Lifecycle.

(** ** The queries *)

Section MoreQueries.
Context `{Specs, Discovery}.

Lemma elem_of_values_keyed {V} (key : V → string) (m : gmap string V) (v : V) :
  (∀ k x, m !! k = Some x → key x = k) →
  v ∈ values m ↔ m !! key v = Some v.
Proof.
  intros Hkey. rewrite elem_of_values. split; [|by eexists].
  intros [k Hk]. apply Hkey in Hk as Hkv. by subst k.
Qed.

(** X8. [get_interfaces] returns, without raising and without changing
    anything, exactly the stored interfaces, one for each key of the
    mapping; on a loaded index none is repeated. *)
Theorem get_interfaces_exact (w : World) :
  ∃ l, get_interfaces w = (Ok l, w) ∧
    (∀ i, i ∈ l ↔ ∃ k, _interfaces (self w) !! k = Some i) ∧
    length l = size (_interfaces (self w)) ∧
    (∀ arg w0, w = after (load_from_ros_package_path arg) w0 → NoDup l).
Proof.
  unfold get_interfaces, bind, get_self, ret.
  eexists; split; [done|]. split_and!.
  - intros i. apply elem_of_values.
  - unfold values. by rewrite length_fmap, length_map_to_list.
  - intros arg w0 ->. rewrite self_after_load.
    apply (NoDup_values interface_name). apply loaded_keyed_by_name.
Qed.

(** X9. [get_semantic_interfaces] returns, without raising and without
    changing anything, exactly the stored semantic interfaces whose
    [redefines] is the given string; the result is empty exactly when none
    matches, and on a loaded index none is repeated. *)
Theorem get_semantic_interfaces_exact (n : string) (w : World) :
  ∃ l, get_semantic_interfaces n w = (Ok l, w) ∧
    (∀ q, q ∈ l ↔
          (∃ k, _semantic_interfaces (self w) !! k = Some q)
          ∧ semantic_interface_redefines q = n) ∧
    (l = [] ↔
     ∀ k q, _semantic_interfaces (self w) !! k = Some q
            → semantic_interface_redefines q ≠ n) ∧
    (∀ arg w0, w = after (load_from_ros_package_path arg) w0 → NoDup l).
Proof.
  unfold get_semantic_interfaces, bind, get_self, ret.
  eexists; split; [done|].
  assert (∀ q, q ∈ filter (λ q, semantic_interface_redefines q = n)
                       (values (_semantic_interfaces (self w)))
               ↔ (∃ k, _semantic_interfaces (self w) !! k = Some q)
                 ∧ semantic_interface_redefines q = n) as Hmem.
  { intros q. rewrite list_elem_of_filter, elem_of_values. tauto. }
  split_and!; [done| |].
  - split.
    + intros Hnil k q Hk Hre.
      assert (q ∈ filter (λ q, semantic_interface_redefines q = n)
                    (values (_semantic_interfaces (self w)))) as Hin
        by (apply Hmem; eauto).
      rewrite Hnil in Hin. by apply elem_of_nil in Hin.
    + intros Hnone.
      destruct (filter _ _) as [|q l] eqn:Hf; [done|].
      assert (q ∈ q :: l) as Hin by apply list_elem_of_here.
      apply Hmem in Hin as [[k Hk] Hre]. by destruct (Hnone k q Hk).
  - intros arg w0 ->. apply NoDup_filter.
    rewrite self_after_load.
    apply (NoDup_values semantic_interface_name).
    apply loaded_keyed_by_name.
Qed.

(** X10. What the queries answer after a reload, in terms of what discovery
    returned: [get_providers n] answers the providers that implement [n],
    are the first discovered provider of their name and whose name no
    discovered interface carries, whether or not an interface called [n]
    exists; likewise for the two other queries. *)
Theorem queries_after_load (arg : option (list string)) (w : World) :
  let path := effective_path arg (self w) in
  let w' := after (load_from_ros_package_path arg) w in
  (∃ l, get_interfaces w' = (Ok l, w') ∧
     ∀ i, i ∈ l ↔
          first_named interface_name (interface_name i)
            (discovered_interfaces path) = Some i) ∧
  (∀ n, ∃ l, get_providers n w' = (Ok l, w') ∧
     ∀ p, p ∈ l ↔
          provider_implements p = n
          ∧ first_named provider_name (provider_name p)
              (discovered_providers path) = Some p
          ∧ ∀ i, i ∈ discovered_interfaces path
                 → interface_name i ≠ provider_name p) ∧
  (∀ n, ∃ l, get_semantic_interfaces n w' = (Ok l, w') ∧
     ∀ q, q ∈ l ↔
          semantic_interface_redefines q = n
          ∧ first_named semantic_interface_name (semantic_interface_name q)
              (discovered_semantic_interfaces path) = Some q
          ∧ (∀ i, i ∈ discovered_interfaces path
                  → interface_name i ≠ semantic_interface_name q)
          ∧ (∀ p, p ∈ discovered_providers path
                  → provider_name p ≠ semantic_interface_name q)).
Proof.
  intros path w'.
  assert (self w' = loaded path) as Hself by apply self_after_load.
  destruct (loaded_keyed_by_name path) as (HkI & HkP & HkS).
  split_and!.
  - unfold get_interfaces, bind, get_self, ret. eexists; split; [done|].
    intros i. rewrite Hself, (elem_of_values_keyed interface_name) by done.
    by destruct (loaded_contents path (interface_name i)) as (-> & _).
  - intros n. unfold get_providers, bind, get_self, ret.
    eexists; split; [done|]. intros p.
    rewrite list_elem_of_filter, Hself,
      (elem_of_values_keyed provider_name) by done.
    destruct (loaded_contents path (provider_name p)) as (_ & -> & _). tauto.
  - intros n. unfold get_semantic_interfaces, bind, get_self, ret.
    eexists; split; [done|]. intros q.
    rewrite list_elem_of_filter, Hself,
      (elem_of_values_keyed semantic_interface_name) by done.
    destruct (loaded_contents path (semantic_interface_name q)) as (_ & _ & ->).
    tauto.
Qed.
End MoreQueries.

(** ** From the command line to the index *)

Section BootstrapProperties.
Context `{Specs, Discovery}.

Lemma py_split_cons (sep : ascii) (s : string) :
  ∃ h t, py_split sep s = h :: t.
Proof.
  destruct s as [|c s]; simpl; [by eexists _, _|].
  destruct (decide (c = sep)); [by eexists _, _|].
  destruct (py_split sep s); by eexists _, _.
Qed.

Lemma py_join_cons (sep : ascii) (x h : string) (t : list string) :
  py_join sep (x :: h :: t) = x +:+ String sep (py_join sep (h :: t)).
Proof. done. Qed.

(** Joining what a split returned gives the string back. *)
Lemma py_join_split (sep : ascii) (s : string) :
  py_join sep (py_split sep s) = s.
Proof.
  induction s as [|c s IH]; [done|]. simpl.
  destruct (py_split_cons sep s) as (h & t & Hs). rewrite Hs in IH |- *.
  destruct (decide (c = sep)) as [->|Hc].
  - rewrite py_join_cons, IH. done.
  - destruct t as [|h' t].
    + simpl in *. by rewrite IH.
    + rewrite py_join_cons. rewrite py_join_cons in IH. by rewrite <- IH.
Qed.

Lemma py_split_no_sep (sep : ascii) (s : string) :
  Forall (λ x, has_char sep x = false) (py_split sep s).
Proof.
  induction s as [|c s IH]; simpl; [by repeat constructor|].
  destruct (decide (c = sep)) as [->|Hc]; [by constructor|].
  destruct (py_split sep s) as [|h t]; simpl.
  - repeat constructor. simpl. by rewrite bool_decide_eq_false_2.
  - apply Forall_cons in IH as [Hh Ht]. constructor; [|done].
    simpl. by rewrite bool_decide_eq_false_2.
Qed.

Lemma py_split_whole (sep : ascii) (x : string) :
  has_char sep x = false → py_split sep x = [x].
Proof.
  induction x as [|c x IH]; simpl; [done|].
  intros [Hc Hx]%orb_false_iff. apply bool_decide_eq_false in Hc.
  rewrite decide_False by done. by rewrite IH.
Qed.

Lemma py_split_app (sep : ascii) (x rest : string) :
  has_char sep x = false →
  py_split sep (x +:+ String sep rest) = x :: py_split sep rest.
Proof.
  induction x as [|c x IH]; simpl.
  - intros _. by rewrite decide_True.
  - intros [Hc Hx]%orb_false_iff. apply bool_decide_eq_false in Hc.
    rewrite decide_False by done.
    change (String.append x (String sep rest)) with (x +:+ String sep rest).
    by rewrite IH.
Qed.

(** Splitting a join of separator-free pieces gives the pieces back. *)
Lemma py_split_join (sep : ascii) (l : list string) :
  l ≠ [] → Forall (λ x, has_char sep x = false) l →
  py_split sep (py_join sep l) = l.
Proof.
  induction l as [|x l IH]; [done|]. intros _ Hall.
  apply Forall_cons in Hall as [Hx Hl].
  destruct l as [|h t].
  - simpl. by apply py_split_whole.
  - rewrite py_join_cons, py_split_app by done. by rewrite IH.
Qed.

Lemma filter_split_nil (sep : ascii) (s : string) :
  filter (λ x, x ≠ "") (py_split sep s) = [] ↔ only_char sep s = true.
Proof.
  induction s as [|c s IH]; simpl; [done|].
  destruct (decide (c = sep)) as [->|Hc].
  - rewrite bool_decide_eq_true_2 by done. simpl.
    rewrite filter_cons_False by (by intros ?). done.
  - rewrite bool_decide_eq_false_2 by done. simpl.
    destruct (py_split sep s) as [|h t];
      rewrite filter_cons_True by done; done.
Qed.

Lemma filter_split_spec (sep : ascii) (s : string) :
  Forall (λ x, x ≠ "" ∧ has_char sep x = false)
         (filter (λ x, x ≠ "") (py_split sep s)).
Proof.
  apply Forall_forall. intros x [Hx Hin]%list_elem_of_filter. split; [done|].
  by eapply (proj1 (Forall_forall _ _) (py_split_no_sep sep s)).
Qed.

Lemma main_index_run (package_path : option string)
    (environ : gmap string string) (out : list string) :
  main_index package_path environ out
  = match filter (λ x, x ≠ "")
            (py_split ":" (py_or package_path
                             (default "" (environ !! "ROS_PACKAGE_PATH")))) with
    | [] => inl "No package paths specified, set ROS_PACKAGE_PATH or pass them as an argument"
    | r :: rs => inr (new_CapabilityIndex (Some (r :: rs)) out)
    end.
Proof. unfold main_index. by destruct (filter _ _). Qed.

(** X11. The bootstrap exits with its message, before any index is built,
    exactly when the chosen string — the argument if it is a non-empty
    string, else the value of [ROS_PACKAGE_PATH], else the empty string —
    consists of colons only.  So it exits when there is no argument and the
    variable is unset or empty, and also when the argument is made of
    colons, whatever the variable holds. *)
Theorem main_exits_without_paths (package_path : option string)
    (environ : gmap string string) (out : list string) :
  ((∃ msg, main_index package_path environ out = inl msg) ↔
   only_char ":" (py_or package_path
                    (default "" (environ !! "ROS_PACKAGE_PATH"))) = true) ∧
  (∀ msg, main_index package_path environ out = inl msg →
          msg = "No package paths specified, set ROS_PACKAGE_PATH or pass them as an argument") ∧
  ((package_path = None ∨ package_path = Some "") →
   (environ !! "ROS_PACKAGE_PATH" = None
    ∨ environ !! "ROS_PACKAGE_PATH" = Some "") →
   ∃ msg, main_index package_path environ out = inl msg) ∧
  (∀ c s, package_path = Some (String c s) →
          only_char ":" (String c s) = true →
          ∃ msg, main_index package_path environ out = inl msg).
Proof.
  rewrite main_index_run.
  set (chosen := py_or package_path (default "" (environ !! "ROS_PACKAGE_PATH"))).
  assert ((∃ msg : string,
             match filter (λ x, x ≠ "") (py_split ":" chosen) with
             | [] => inl "No package paths specified, set ROS_PACKAGE_PATH or pass them as an argument"
             | r :: rs => inr (new_CapabilityIndex (Some (r :: rs)) out)
             end = inl msg) ↔ only_char ":" chosen = true) as Hiff.
  { rewrite <- filter_split_nil.
    destruct (filter _ _); split; try done; [by eexists|by intros [? ?]]. }
  split_and!; [done| | |].
  - intros msg. destruct (filter _ _); [by intros [= <-]|done].
  - intros Harg Henv. apply Hiff. subst chosen.
    by destruct Harg as [-> | ->], Henv as [-> | ->].
  - intros c s -> Hs. apply Hiff. by subst chosen.
Qed.

(** X12. When the chosen string has a character other than a colon, the
    bootstrap builds the index on its non-empty segments: the constructor
    completes, the stored path is a non-empty list of non-empty colon-free
    strings, and joining it with colons and splitting again gives it
    back. *)
Theorem main_builds_index (package_path : option string)
    (environ : gmap string string) (out : list string) :
  only_char ":" (py_or package_path
                   (default "" (environ !! "ROS_PACKAGE_PATH"))) = false →
  ∃ roots w',
    main_index package_path environ out = inr (Ok tt, w') ∧
    roots
    = filter (λ x, x ≠ "")
        (py_split ":" (py_or package_path
                         (default "" (environ !! "ROS_PACKAGE_PATH")))) ∧
    roots ≠ [] ∧
    Forall (λ r, r ≠ "" ∧ has_char ":" r = false) roots ∧
    _ros_package_path (self w') = Some roots ∧
    self w' = self (after (load_from_ros_package_path (Some roots))
                      {| self := blank; stdout := out |}) ∧
    py_split ":" (py_join ":" roots) = roots.
Proof.
  intros Hchosen. rewrite main_index_run.
  set (chosen := py_or package_path (default "" (environ !! "ROS_PACKAGE_PATH")))
    in *.
  pose proof (filter_split_spec ":" chosen) as Hspec.
  pose proof (filter_split_nil ":" chosen) as Hnil.
  destruct (filter (λ x, x ≠ "") (py_split ":" chosen)) as [|r rs] eqn:Hf.
  { rewrite (proj1 Hnil eq_refl) in Hchosen. done. }
  destruct (new_CapabilityIndex_run (Some (r :: rs)) out) as [out' ->].
  eexists (r :: rs), _. split_and!; [done|done|done|done| | |].
  - simpl. apply loaded_path.
  - simpl. by rewrite self_after_load.
  - apply py_split_join; [done|].
    eapply Forall_impl; [exact Hspec|]. by intros x [_ ?].
Qed.

(** X13. When [args.package_path], the value [parse_args] returned at line
    210, is the join by colons of a non-empty list of non-empty colon-free
    paths, lines 212-218 build the index on exactly that list, whatever the
    environment holds; so do they when [args.package_path] is [None] and
    [ROS_PACKAGE_PATH] holds that join.  Which command lines [parse_args]
    accepts is decided before these lines and is not part of the
    statement. *)
Theorem main_recovers_joined_paths (roots : list string)
    (environ : gmap string string) (out : list string) :
  roots ≠ [] →
  Forall (λ r, r ≠ "" ∧ has_char ":" r = false) roots →
  main_index (Some (py_join ":" roots)) environ out
  = inr (new_CapabilityIndex (Some roots) out) ∧
  main_index None (<["ROS_PACKAGE_PATH" := py_join ":" roots]> environ) out
  = inr (new_CapabilityIndex (Some roots) out).
Proof.
  intros Hne Hall.
  assert (filter (λ x, x ≠ "") (py_split ":" (py_join ":" roots)) = roots) as Hf.
  { rewrite py_split_join; [|done|].
    - clear Hne. induction roots as [|r rs IH]; [done|].
      apply Forall_cons in Hall as [[Hr _] Hrs].
      rewrite filter_cons_True by done. by rewrite IH.
    - eapply Forall_impl; [exact Hall|]. by intros x [_ ?]. }
  assert (∀ b, py_or (Some (py_join ":" roots)) b = py_join ":" roots) as Hor.
  { intros b. destruct roots as [|r rs]; [done|].
    apply Forall_cons in Hall as [[Hr _] _].
    destruct r as [|c r]; [done|]. by destruct rs. }
  rewrite !main_index_run, Hor. simpl. rewrite lookup_insert_eq. simpl.
  rewrite Hf. by destruct roots.
Qed.
(** X14. A reload request served by the index the bootstrap built keeps
    the paths resolved at bootstrap: it completes, announces itself and,
    the collaborators answering as before, leaves the index as it was. *)
Theorem reload_request_after_bootstrap (package_path : option string)
    (environ : gmap string string) (out : list string) :
  only_char ":" (py_or package_path
                   (default "" (environ !! "ROS_PACKAGE_PATH"))) = false →
  ∃ w' out',
    main_index package_path environ out = inr (Ok tt, w') ∧
    handle_reload_request w'
    = (Ok mkEmptyResponse,
       {| self := self w';
          stdout := stdout w' ++ "Reloading capabilities" :: out' |}).
Proof.
  intros Hchosen. rewrite main_index_run.
  pose proof (filter_split_nil ":"
    (py_or package_path (default "" (environ !! "ROS_PACKAGE_PATH")))) as Hnil.
  destruct (filter _ _) as [|r rs].
  { rewrite (proj1 Hnil eq_refl) in Hchosen. done. }
  destruct (new_CapabilityIndex_run (Some (r :: rs)) out) as [out1 ->].
  destruct (load_from_ros_package_path_run None
    {| self := loaded (Some (r :: rs));
       stdout := (out ++ out1) ++ ["Reloading capabilities"] |})
    as [out2 Hrun].
  exists {| self := loaded (Some (r :: rs)); stdout := out ++ out1 |}, out2.
  split; [done|].
  unfold handle_reload_request, bind, print; simpl. rewrite Hrun; simpl.
  unfold effective_path; simpl. rewrite loaded_path.
  by rewrite <- (app_assoc (out ++ out1)).
Qed.
End BootstrapProperties.

(** ** The added properties on the example tree *)

Lemma no_collision_no_diagnostic_witness :
  let w := {| self := blank; stdout := [] |} in
  let path := effective_path (Some ["/pkgs/a"]) (self w) in
  load_from_ros_package_path (Some ["/pkgs/a"]) w
  = (Ok tt, {| self := loaded path; stdout := stdout w |}) ∧
  (∀ i, i ∈ discovered_interfaces path →
        _interfaces (loaded path) !! interface_name i = Some i) ∧
  (∀ p, p ∈ discovered_providers path →
        _providers (loaded path) !! provider_name p = Some p) ∧
  (∀ q, q ∈ discovered_semantic_interfaces path →
        _semantic_interfaces (loaded path) !! semantic_interface_name q = Some q).
Proof.
  intros w path.
  apply (no_collision_no_diagnostic (Some ["/pkgs/a"]) w).
  apply (bool_decide_unpack _). by vm_compute.
Defined.

Lemma empty_discovery_witness :
  let w := {| self := blank; stdout := [] |} in
  let w' := {| self := {| _ros_package_path := Some ["/nowhere"];
                          _interfaces := ∅; _providers := ∅;
                          _semantic_interfaces := ∅ |};
               stdout := [] |} in
  load_from_ros_package_path (Some ["/nowhere"]) w = (Ok tt, w') ∧
  get_interfaces w' = (Ok [], w') ∧
  (∀ n, get_providers n w' = (Ok [], w')) ∧
  (∀ n, get_semantic_interfaces n w' = (Ok [], w')).
Proof.
  intros w w'.
  apply (empty_discovery (Some ["/nowhere"]) w); reflexivity.
Defined.

Lemma main_exits_without_paths_witness :
  ∃ msg, main_index (Some "::")
           (<["ROS_PACKAGE_PATH" := "/pkgs/a"]> ∅) [] = inl msg.
Proof.
  destruct (main_exits_without_paths (Some "::")
              (<["ROS_PACKAGE_PATH" := "/pkgs/a"]> ∅) []) as (_ & _ & _ & Hcolons).
  by apply (Hcolons ":"%char ":").
Defined.

Lemma main_builds_index_witness :
  ∃ roots w',
    main_index (Some "/pkgs/a::/pkgs/b") ∅ [] = inr (Ok tt, w') ∧
    roots
    = filter (λ x, x ≠ "")
        (py_split ":" (py_or (Some "/pkgs/a::/pkgs/b")
                         (default "" ((∅ : gmap string string)
                                        !! "ROS_PACKAGE_PATH")))) ∧
    roots ≠ [] ∧
    Forall (λ r, r ≠ "" ∧ has_char ":" r = false) roots ∧
    _ros_package_path (self w') = Some roots ∧
    self w' = self (after (load_from_ros_package_path (Some roots))
                      {| self := blank; stdout := [] |}) ∧
    py_split ":" (py_join ":" roots) = roots.
Proof.
  apply (main_builds_index (Some "/pkgs/a::/pkgs/b") ∅ []). reflexivity.
Defined.

Lemma main_recovers_joined_paths_witness :
  main_index (Some (py_join ":" ["/pkgs/a"; "/pkgs/b"])) ∅ []
  = inr (new_CapabilityIndex (Some ["/pkgs/a"; "/pkgs/b"]) []) ∧
  main_index None
    (<["ROS_PACKAGE_PATH" := py_join ":" ["/pkgs/a"; "/pkgs/b"]]> ∅) []
  = inr (new_CapabilityIndex (Some ["/pkgs/a"; "/pkgs/b"]) []).
Proof.
  apply (main_recovers_joined_paths ["/pkgs/a"; "/pkgs/b"] ∅ []); [done|].
  repeat constructor; done.
Defined.

Lemma reload_request_after_bootstrap_witness :
  ∃ w' out',
    main_index (Some "/pkgs/b") ∅ [] = inr (Ok tt, w') ∧
    handle_reload_request w'
    = (Ok mkEmptyResponse,
       {| self := self w';
          stdout := stdout w' ++ "Reloading capabilities" :: out' |}).
Proof.
  apply (reload_request_after_bootstrap (Some "/pkgs/b") ∅ []). reflexivity.
Defined.

(** The bootstrap, run. *)
Example scenario_bootstrap :
  py_split ":" "/pkgs/a::/pkgs/b" = ["/pkgs/a"; ""; "/pkgs/b"] ∧
  py_split ":" "" = [""] ∧
  (∃ msg, main_index None ∅ [] = inl msg) ∧
  _ros_package_path
    (self (snd (default (Ok tt, {| self := blank; stdout := [] |})
                  (match main_index (Some "/pkgs/a::/pkgs/b") ∅ [] with
                   | inr r => Some r
                   | inl _ => None
                   end))))
  = Some ["/pkgs/a"; "/pkgs/b"].
Proof. split_and!; [done|done|by eexists|by vm_compute]. Qed.

(** ** A reload, statement by statement *)

Section BetweenStatements.
Context `{Specs, Discovery}.

Lemma run_statements_app (l1 l2 : list (M unit)) (w : World) :
  run_statements (l1 ++ l2) w
  = bind (run_statements l1) (λ _, run_statements l2) w.
Proof.
  revert w. induction l1 as [|m l1 IH]; intros w; [done|].
  unfold run_statements in *. simpl. unfold bind in *.
  destruct (m w) as [[[]|e] w1]; [|done]. apply IH.
Qed.

Lemma run_statements_fmap {A} (f : A → M unit) (l : list A) (w : World) :
  run_statements (f <$> l) w = for_each l f w.
Proof.
  revert w. induction l as [|x l IH]; intros w; [done|].
  unfold run_statements in *. csimpl. unfold bind.
  destruct (f x w) as [[[]|e] w1]; [|done]. apply IH.
Qed.

Lemma grows_refl (s : CapabilityIndex) : grows s s.
Proof. by repeat split. Qed.

Lemma grows_trans (s1 s2 s3 : CapabilityIndex) :
  grows s1 s2 → grows s2 s3 → grows s1 s3.
Proof.
  intros (? & ? & ?) (? & ? & ?). repeat split; by etrans.
Qed.

Lemma add_interface_grows (s : CapabilityIndex) (i : Interface) :
  grows s (add_interface s i).
Proof.
  unfold add_interface. destruct (name_free _ s) eqn:Hfree; [|apply grows_refl].
  apply name_free_true in Hfree as (Hi & _ & _).
  repeat split; simpl; [|done|done]. by apply insert_subseteq.
Qed.

Lemma add_provider_grows (s : CapabilityIndex) (p : Provider) :
  grows s (add_provider s p).
Proof.
  unfold add_provider. destruct (name_free _ s) eqn:Hfree; [|apply grows_refl].
  apply name_free_true in Hfree as (_ & Hp & _).
  repeat split; simpl; [done| |done]. by apply insert_subseteq.
Qed.

Lemma add_semantic_interface_grows (s : CapabilityIndex) (q : SemanticInterface) :
  grows s (add_semantic_interface s q).
Proof.
  unfold add_semantic_interface.
  destruct (name_free _ s) eqn:Hfree; [|apply grows_refl].
  apply name_free_true in Hfree as (_ & _ & Hq).
  repeat split; simpl; [done|done|]. by apply insert_subseteq.
Qed.

(** The statements of the three loops complete and only add entries. *)
Lemma loop_statements_grow (fi fp fs : list string) :
  Forall (λ m : M unit, ∀ w, ∃ w', m w = (Ok tt, w') ∧ grows (self w) (self w'))
    ((load_interface <$> fi) ++ (load_provider <$> fp)
     ++ (load_semantic_interface <$> fs)).
Proof.
  rewrite !Forall_app, !Forall_fmap. split_and!; apply Forall_forall;
    intros f _ w; simpl.
  - rewrite load_interface_run. eexists; split; [done|].
    apply add_interface_grows.
  - rewrite load_provider_run. eexists; split; [done|].
    apply add_provider_grows.
  - rewrite load_semantic_interface_run. eexists; split; [done|].
    apply add_semantic_interface_grows.
Qed.

Lemma run_statements_grow (ms : list (M unit)) (w : World) :
  Forall (λ m : M unit, ∀ w, ∃ w', m w = (Ok tt, w') ∧ grows (self w) (self w'))
    ms →
  ∃ w', run_statements ms w = (Ok tt, w') ∧ grows (self w) (self w').
Proof.
  intros Hms. revert w. induction Hms as [|m ms Hm _ IH]; intros w.
  - exists w. split; [done|]. apply grows_refl.
  - unfold run_statements in *. simpl. unfold bind.
    destruct (Hm w) as (w1 & -> & Hg1). destruct (IH w1) as (w2 & -> & Hg2).
    exists w2. split; [done|]. by eapply grows_trans.
Qed.

(** The world the three assignments of line 88 leave. *)
Lemma run_clearing (arg : option (list string)) (w : World)
    (rest : list (M unit)) :
  run_statements
    ((if negb (truthy arg) then ret tt else set_ros_package_path arg)
     :: set_interfaces ∅ :: set_providers ∅ :: set_semantic_interfaces ∅ :: rest) w
  = run_statements rest
      {| self := {| _ros_package_path := effective_path arg (self w);
                    _interfaces := ∅; _providers := ∅;
                    _semantic_interfaces := ∅ |};
         stdout := stdout w |}.
Proof.
  unfold run_statements, effective_path; simpl. destruct w as [s out].
  by destruct (truthy arg).
Qed.

Lemma run_load_statements (arg : option (list string)) (w : World) :
  run_statements (load_statements arg (self w)) w
  = load_from_ros_package_path arg w.
Proof.
  unfold load_statements. simpl. rewrite run_clearing.
  unfold load_from_ros_package_path.
  set (path := effective_path arg (self w)).
  set (w0 := {| self := {| _ros_package_path := path; _interfaces := ∅;
                           _providers := ∅; _semantic_interfaces := ∅ |};
                stdout := stdout w |}).
  assert (∀ k : option (list string) → M unit,
            bind (if negb (truthy arg)
                  then bind get_self (λ s, ret (_ros_package_path s))
                  else bind (set_ros_package_path arg) (λ _, ret arg))
                 (λ p, bind _initialize_capabilities (λ _, k p)) w
            = k path w0) as ->.
  { intros k. subst path w0. unfold effective_path. destruct w as [s out].
    by destruct (truthy arg). }
  rewrite run_statements_app. unfold bind.
  rewrite run_statements_fmap.
  destruct (for_each _ load_interface w0) as [[[]|e] w1]; [|done].
  rewrite run_statements_app. unfold bind.
  rewrite run_statements_fmap.
  destruct (for_each _ load_provider w1) as [[[]|e] w2]; [|done].
  apply run_statements_fmap.
Qed.

(** C5, as the code has it. A reload is the sequence of its statements, run
    on the live mappings.  After any number of them the statements so far
    have completed, and each mapping a reader finds is either the
    pre-reload mapping or a part of the post-reload mapping; once the three
    mappings have been emptied (four statements), every entry the reader
    finds is an entry of the post-reload mappings; once all statements
    have run the reader finds the post-reload world. *)
Theorem reload_seen_between_statements (arg : option (list string)) (w : World)
    (k : nat) :
  let final := after (load_from_ros_package_path arg) w in
  let mid := seen_after k arg w in
  run_statements (load_statements arg (self w)) w
  = load_from_ros_package_path arg w ∧
  fst (run_statements (take k (load_statements arg (self w))) w) = Ok tt ∧
  (_interfaces (self mid) = _interfaces (self w)
   ∨ _interfaces (self mid) ⊆ _interfaces (self final)) ∧
  (_providers (self mid) = _providers (self w)
   ∨ _providers (self mid) ⊆ _providers (self final)) ∧
  (_semantic_interfaces (self mid) = _semantic_interfaces (self w)
   ∨ _semantic_interfaces (self mid) ⊆ _semantic_interfaces (self final)) ∧
  (4 ≤ k → grows (self mid) (self final)) ∧
  (length (load_statements arg (self w)) ≤ k → mid = final).
Proof.
  intros final mid.
  pose proof (run_load_statements arg w) as Hall.
  assert (length (load_statements arg (self w)) ≤ k → mid = final) as Hdone.
  { intros Hk. subst mid final. unfold seen_after, after.
    by rewrite take_ge, Hall by done. }
  assert (4 ≤ k →
          fst (run_statements (take k (load_statements arg (self w))) w) = Ok tt
          ∧ grows (self mid) (self final)) as Hlate.
  { intros Hk. subst mid final. unfold seen_after, after. rewrite <- Hall.
    destruct k as [|[|[|[|j]]]]; [lia..|]. clear Hk Hall Hdone.
    unfold load_statements. simpl. rewrite !run_clearing.
    set (w0 := {| self := {| _ros_package_path := effective_path arg (self w);
                             _interfaces := ∅; _providers := ∅;
                             _semantic_interfaces := ∅ |};
                  stdout := stdout w |}).
    set (B := (load_interface <$> _) ++ (load_provider <$> _)
              ++ (load_semantic_interface <$> _)).
    assert (Forall (λ m : M unit,
                      ∀ w, ∃ w', m w = (Ok tt, w') ∧ grows (self w) (self w')) B)
      as HB by apply loop_statements_grow.
    rewrite <- (take_drop j B) at 3. rewrite run_statements_app. unfold bind.
    destruct (run_statements_grow (take j B) w0) as (w1 & -> & _);
      [by apply Forall_take|].
    destruct (run_statements_grow (drop j B) w1) as (w2 & -> & Hg);
      [by apply Forall_drop|].
    done. }
  split_and!; [done| | | | |by intros Hk; apply Hlate|done].
  - destruct (decide (4 ≤ k)) as [Hk|Hk]; [by apply Hlate|].
    unfold load_statements.
    destruct k as [|[|[|[|j]]]]; [| | | |lia]; simpl; unfold run_statements;
      simpl; unfold bind; by destruct (truthy arg).
  - destruct (decide (4 ≤ k)) as [Hk|Hk]; [right; by apply Hlate|].
    subst mid. unfold seen_after, after, load_statements.
    destruct k as [|[|[|[|j]]]]; [| | | |lia]; simpl; unfold run_statements;
      simpl; unfold bind; destruct (truthy arg); simpl;
      first [by left | right; apply map_empty_subseteq].
  - destruct (decide (4 ≤ k)) as [Hk|Hk]; [right; by apply Hlate|].
    subst mid. unfold seen_after, after, load_statements.
    destruct k as [|[|[|[|j]]]]; [| | | |lia]; simpl; unfold run_statements;
      simpl; unfold bind; destruct (truthy arg); simpl;
      first [by left | right; apply map_empty_subseteq].
  - destruct (decide (4 ≤ k)) as [Hk|Hk]; [right; by apply Hlate|].
    subst mid. unfold seen_after, after, load_statements.
    destruct k as [|[|[|[|j]]]]; [| | | |lia]; simpl; unfold run_statements;
      simpl; unfold bind; destruct (truthy arg); simpl;
      first [by left | right; apply map_empty_subseteq].
Qed.
End BetweenStatements.

(** C5, as stated, fails.  On an index of [/pkgs/a], reloaded on the
    unchanged tree, the providers of [Minimal] are [P1] and [P2] before and
    after the reload; a query that runs after the second statement finds the
    interfaces emptied next to the old providers, after the fourth it finds
    no provider at all, and after the sixth only [P1]. *)
Lemma reload_is_not_atomic :
  let w := Example.start (Some ["/pkgs/a"]) in
  let p1 := {| Example.pname := "P1"; Example.pimplements := "Minimal";
               Example.pfile := "/pkgs/a/P1.yaml" |} in
  let p2 := {| Example.pname := "P2"; Example.pimplements := "Minimal";
               Example.pfile := "/pkgs/a/P2.yaml" |} in
  fst (get_providers "Minimal" w) = Ok [p1; p2] ∧
  fst (get_providers "Minimal" (after (load_from_ros_package_path None) w))
  = Ok [p1; p2] ∧
  fst (get_interfaces (seen_after 2 None w)) = Ok [] ∧
  fst (get_providers "Minimal" (seen_after 2 None w)) = Ok [p1; p2] ∧
  fst (get_providers "Minimal" (seen_after 4 None w)) = Ok [] ∧
  fst (get_providers "Minimal" (seen_after 6 None w)) = Ok [p1].
Proof. split_and!; by vm_compute. Qed.

Lemma reload_seen_between_statements_witness :
  let w := {| self := blank; stdout := [] |} in
  grows (self (seen_after 5 (Some ["/pkgs/a"]) w))
        (self (after (load_from_ros_package_path (Some ["/pkgs/a"])) w)) ∧
  seen_after 8 (Some ["/pkgs/a"]) w
  = after (load_from_ros_package_path (Some ["/pkgs/a"])) w.
Proof.
  intros w.
  destruct (reload_seen_between_statements (Some ["/pkgs/a"]) w 5)
    as (_ & _ & _ & _ & _ & Hgrows & _).
  destruct (reload_seen_between_statements (Some ["/pkgs/a"]) w 8)
    as (_ & _ & _ & _ & _ & _ & Hdone).
  split.
  - apply Hgrows. lia.
  - apply Hdone. vm_compute. lia.
Defined.
